(** * The experiment package: exception taxonomy, trace records, classifier

    A shallow embedding of [experiment/exceptions.go]: the exception kinds,
    the [OneStep] / [Trace] / [ExceptionalTx] records with the pointers that
    link them, the allocation and release methods, and [CheckException]. *)

From Stdlib Require Import ZArith Ascii String List Lia Bool.
From stdpp Require Import base option list gmap strings.

Local Open Scope Z_scope.

(** ** Exception kinds

    [const ( NoException = iota; ExplicitRevert; ... )]: untyped integer
    constants numbered from zero, returned as [uint64]. *)

Definition NoException : Z := 0.
Definition ExplicitRevert : Z := 1.
Definition DepositOutOfGas : Z := 2.
Definition RunOutOfGas : Z := 3.
Definition CallStackOverflow : Z := 4.
Definition DataStackUnderflow : Z := 5.
Definition DataStackOverflow : Z := 6.
Definition InvalidJumpDestination : Z := 7.
Definition InvalidInstruction : Z := 8.
Definition PrecompiledCallError : Z := 9.
Definition InsufficientBalance : Z := 10.
Definition WritePermissionViolation : Z := 11.
Definition ReturnDataOutOfBound : Z := 12.
Definition ContractAddressCollision : Z := 13.
Definition MaxCodeSizeExceeded : Z := 14.
Definition GasUintOverflow : Z := 15.
Definition EmptyCode : Z := 16.

(** ** The fragment of Go's [regexp] package that the classifier uses

    Go strings are byte sequences, and so are [string]s here.  The four
    patterns of the source are built from literal characters, [.], a
    postfix [+], and the anchors [^] and [$], compiled without flags:
    [^] and [$] match only at the beginning and at the end of the text and
    [.] matches every character but the line feed.  A byte of a multi-byte
    or malformed UTF-8 sequence is never a line feed, so matching [.] byte
    by byte agrees with matching it rune by rune. *)

Module regexp.

Inductive class : Type :=
| Lit (a : ascii)
| AnyCharNotNL.

Inductive inst : Type :=
| Char (c : class)
| Plus (c : class)
| BeginText
| EndText.

Definition Regexp : Type := list inst.

Definition newline : ascii := ascii_of_nat 10.

(** Characters with a meaning of their own in the pattern syntax; only
    [^], [$], [.] and a postfix [+] are part of the fragment. *)
Definition is_meta (a : ascii) : bool :=
  existsb (Ascii.eqb a)
    (list_ascii_of_string "\*+?()[]{}|").

Definition parse_class (a : ascii) : class :=
  if Ascii.eqb a "." then AnyCharNotNL else Lit a.

(** [parse] is [None] on every pattern outside the fragment, which
    covers every pattern that Go rejects. *)
Fixpoint parse (pat : string) : option Regexp :=
  match pat with
  | EmptyString => Some []
  | String a rest =>
      if Ascii.eqb a "^" then cons BeginText <$> parse rest
      else if Ascii.eqb a "$" then cons EndText <$> parse rest
      else if is_meta a then None
      else
        match rest with
        | String b rest' =>
            if Ascii.eqb b "+" then cons (Plus (parse_class a)) <$> parse rest'
            else cons (Char (parse_class a)) <$> parse rest
        | EmptyString => cons (Char (parse_class a)) <$> parse rest
        end
  end.

(** [regexp.MustCompile]: panics ([None]) when the pattern does not parse. *)
Definition MustCompile (pat : string) : option Regexp := parse pat.

Definition accepts (c : class) (a : ascii) : bool :=
  match c with
  | Lit b => Ascii.eqb a b
  | AnyCharNotNL => negb (Ascii.eqb a newline)
  end.

(** [matches_here re bot s]: [re] matches a prefix of [s]; [bot] says
    whether [s] starts at the beginning of the text. *)
Fixpoint matches_here (re : Regexp) (bot : bool) (s : string) : bool :=
  match re with
  | [] => true
  | Char c :: re' =>
      match s with
      | String a s' => accepts c a && matches_here re' false s'
      | EmptyString => false
      end
  | Plus c :: re' =>
      (fix more (s : string) : bool :=
         match s with
         | String a s' => accepts c a && (more s' || matches_here re' false s')
         | EmptyString => false
         end) s
  | BeginText :: re' => bot && matches_here re' bot s
  | EndText :: re' =>
      match s with
      | EmptyString => matches_here re' bot s
      | String _ _ => false
      end
  end.

(** A match may start at any position of the text. *)
Fixpoint search (re : Regexp) (bot : bool) (s : string) : bool :=
  matches_here re bot s ||
  match s with
  | String _ s' => search re false s'
  | EmptyString => false
  end.

(** [len(re.FindAllString(s, -1)) > 0]: the list of all successive
    matches of [re] in [s] is not empty exactly when [re] matches
    somewhere in [s]. *)
Definition FindAllString_nonempty (re : Regexp) (s : string) : bool :=
  search re true s.

End regexp.

(** ** The classifier *)

(** A panic-or-value result: [None] is a run-time panic. *)
Definition result (A : Type) : Type := option A.

(** The conditions of the [switch]'s clauses. *)
Definition is_error (lit : string) (msg : string) : result bool :=
  Some (String.eqb msg lit).

Definition matches_pattern (pat : string) (msg : string) : result bool :=
  re ← regexp.MustCompile pat;
  Some (regexp.FindAllString_nonempty re msg).

(** One clause [case cond: return err.Error(), kind]. *)
Definition case_clause : Type := (string → result bool) * Z.

Definition CheckException_cases : list case_clause :=
  [ (is_error "evm: execution reverted", ExplicitRevert);
    (is_error "contract creation code storage out of gas", DepositOutOfGas);
    (is_error "out of gas", RunOutOfGas);
    (is_error "max call depth exceeded", CallStackOverflow);
    (matches_pattern "^stack underflow .+$", DataStackUnderflow);
    (matches_pattern "^stack limit reached .+$", DataStackOverflow);
    (matches_pattern "^invalid jump destination .+$", InvalidJumpDestination);
    (matches_pattern "^invalid opcode .+$", InvalidInstruction);
    (is_error "insufficient balance for transfer", InsufficientBalance);
    (is_error "evm: write protection", WritePermissionViolation);
    (is_error "evm: return data out of bounds", ReturnDataOutOfBound);
    (is_error "contract address collision", ContractAddressCollision);
    (is_error "evm: max code size exceeded", MaxCodeSizeExceeded);
    (is_error "gas uint64 overflow", GasUintOverflow);
    (is_error "empty call code", EmptyCode) ].

(** An expressionless [switch]: the conditions are evaluated from top to
    bottom and the first true one selects its clause; [default] is taken
    when none is.  The second component counts the conditions evaluated. *)
Fixpoint switch (cases : list case_clause) (default : Z) (msg : string)
  : result (Z * nat) :=
  match cases with
  | [] => Some (default, 0%nat)
  | (cond, kind) :: cases' =>
      b ← cond msg;
      if b : bool then Some (kind, 1%nat)
      else '(k, n) ← switch cases' default msg; Some (k, S n)
  end.

(** [CheckException] with the number of clause conditions it evaluated.
    An [error] is modelled by its message ([err.Error()]); [None] is the
    nil error. *)
Definition CheckException_run (err : option string) : result (string * Z * nat) :=
  match err with
  | None => Some (EmptyString, NoException, 0%nat)
  | Some msg =>
      '(kind, n) ← switch CheckException_cases PrecompiledCallError msg;
      Some (msg, kind, n)
  end.

Definition CheckException (err : option string) : result (string * Z) :=
  fst <$> CheckException_run err.

Definition rules_evaluated (err : option string) : result nat :=
  snd <$> CheckException_run err.

(** ** Records

    Fixed-width unsigned fields are [Z]s (none of the modelled code does
    arithmetic on them).  A [*OneStep] or [*Trace] is an optional value or
    location, [None] being nil. *)

Definition loc : Type := positive.
Definition ptr : Type := option loc.

Module OneStep.
Record t : Type := mk {
  StepNum : Z;
  PC : Z;
  Ins : string;
  RemainingGas : Z
}.
End OneStep.

(** No method of the package writes through a [*OneStep], so a step
    pointer is modelled by the optional step it points to. *)
Module Trace.
Record t : Type := mk {
  CallStackDepth : Z;
  From : string;
  To : string;
  Value : string;
  Input : string;
  GasLimit : Z;
  GasPrice : string;
  StatusCode : Z;
  ErrorMsg : string;
  ErrorCode : Z;
  Steps : list (option OneStep.t);
  TraceDocID : string
}.

(** The value [new(Trace)] points to. *)
Definition zero : t :=
  mk 0 EmptyString EmptyString EmptyString EmptyString 0 EmptyString 0
     EmptyString 0 [] EmptyString.

(** [t.Steps = steps] *)
Definition set_Steps (tr : t) (steps : list (option OneStep.t)) : t :=
  mk (CallStackDepth tr) (From tr) (To tr) (Value tr) (Input tr)
     (GasLimit tr) (GasPrice tr) (StatusCode tr) (ErrorMsg tr)
     (ErrorCode tr) steps (TraceDocID tr).
End Trace.

Module ExceptionalTx.
Record t : Type := mk {
  BlockNum : Z;
  TxIndex : Z;
  Nonce : Z;
  TxHash : string;
  From : string;
  To : string;
  Value : string;
  Input : string;
  GasLimit : Z;
  GasPrice : string;
  CreateAddress : string;
  StatusCode : Z;
  NumSteps : Z;
  HasException : bool;
  Traces : list ptr
}.

(** The value [new(ExceptionalTx)] points to. *)
Definition zero : t :=
  mk 0 0 0 EmptyString EmptyString EmptyString EmptyString EmptyString 0
     EmptyString EmptyString 0 0 false [].

(** [tx.Traces = traces] *)
Definition set_Traces (r : t) (traces : list ptr) : t :=
  mk (BlockNum r) (TxIndex r) (Nonce r) (TxHash r) (From r) (To r)
     (Value r) (Input r) (GasLimit r) (GasPrice r) (CreateAddress r)
     (StatusCode r) (NumSteps r) (HasException r) traces.

(** The two fields that sealing a record computes. *)
Definition set_summary (r : t) (steps : Z) (exc : bool) : t :=
  mk (BlockNum r) (TxIndex r) (Nonce r) (TxHash r) (From r) (To r)
     (Value r) (Input r) (GasLimit r) (GasPrice r) (CreateAddress r)
     (StatusCode r) steps exc (Traces r).
End ExceptionalTx.

(** ** The store

    The objects that pointers refer to, by location.  Slices are lists:
    the package never copies a slice header, so no two slices share a
    backing array. *)

Record Heap : Type := mkHeap {
  traces : gmap loc Trace.t;
  txs : gmap loc ExceptionalTx.t
}.

Definition empty_heap : Heap := mkHeap ∅ ∅.

(** Computations on the store that may panic. *)
Definition M (A : Type) : Type := Heap → result (A * Heap).

Definition ret {A : Type} (a : A) : M A := λ h, Some (a, h).

Definition bind {A B : Type} (m : M A) (k : A → M B) : M B :=
  λ h, match m h with
       | Some (a, h') => k a h'
       | None => None
       end.

Definition panic {A : Type} : M A := λ _, None.

Notation "x <- m ;; k" := (bind m (λ x, k))
  (at level 100, m at next level, right associativity).
Notation "m ;; k" := (bind m (λ _, k))
  (at level 100, right associativity).

(** [new(Trace)], [new(ExceptionalTx)]: a zero value at a location not in
    use. *)
Definition new_Trace : M ptr :=
  λ h, let q := fresh (dom (traces h)) in
       Some (Some q, mkHeap (<[q := Trace.zero]> (traces h)) (txs h)).

Definition new_ExceptionalTx : M ptr :=
  λ h, let p := fresh (dom (txs h)) in
       Some (Some p, mkHeap (traces h) (<[p := ExceptionalTx.zero]> (txs h))).

(** Reading and writing through a pointer; a nil pointer panics. *)
Definition load_Trace (t : ptr) : M Trace.t :=
  λ h, match t with
       | Some q => tr ← traces h !! q; Some (tr, h)
       | None => None
       end.

Definition store_Trace (t : ptr) (tr : Trace.t) : M unit :=
  λ h, match t with
       | Some q => _ ← traces h !! q; Some (tt, mkHeap (<[q := tr]> (traces h)) (txs h))
       | None => None
       end.

Definition load_ExceptionalTx (tx : ptr) : M ExceptionalTx.t :=
  λ h, match tx with
       | Some p => r ← txs h !! p; Some (r, h)
       | None => None
       end.

Definition store_ExceptionalTx (tx : ptr) (r : ExceptionalTx.t) : M unit :=
  λ h, match tx with
       | Some p => _ ← txs h !! p; Some (tt, mkHeap (traces h) (<[p := r]> (txs h)))
       | None => None
       end.

(** [s[i] = v]: panics when [i] is out of range. *)
Definition index_set {A : Type} (s : list A) (i : nat) (v : A) : M (list A) :=
  if decide (i < length s)%nat then ret (<[i := v]> s) else panic.

(** [for i, x := range s { body }]: [s] is evaluated once, and the body
    runs for each index in order. *)
Fixpoint range_from {A : Type} (i : nat) (s : list A) (body : nat → A → M unit)
  : M unit :=
  match s with
  | [] => ret tt
  | x :: s' => body i x ;; range_from (S i) s' body
  end.

Definition range {A : Type} (s : list A) (body : nat → A → M unit) : M unit :=
  range_from 0 s body.

(** ** Allocation and release *)

Definition NewTxRecord : M ptr :=
  txRecord <- new_ExceptionalTx ;;
  r <- load_ExceptionalTx txRecord ;;
  store_ExceptionalTx txRecord (ExceptionalTx.set_Traces r []) ;;
  ret txRecord.

Definition ExceptionalTx_NewTrace (tx : ptr) : M ptr :=
  trace <- new_Trace ;;
  t <- load_Trace trace ;;
  store_Trace trace (Trace.set_Steps t []) ;;
  r <- load_ExceptionalTx tx ;;
  store_ExceptionalTx tx
    (ExceptionalTx.set_Traces r (ExceptionalTx.Traces r ++ [trace])) ;;
  ret trace.

Definition Trace_ReleaseInternal (t : ptr) : M unit :=
  tr <- load_Trace t ;;
  range (Trace.Steps tr) (λ i _,
    tr' <- load_Trace t ;;
    steps <- index_set (Trace.Steps tr') i None ;;
    store_Trace t (Trace.set_Steps tr' steps)).

Definition ExceptionalTx_ReleaseInternal (tx : ptr) : M unit :=
  r <- load_ExceptionalTx tx ;;
  range (ExceptionalTx.Traces r) (λ i p,
    Trace_ReleaseInternal p ;;
    r' <- load_ExceptionalTx tx ;;
    trs <- index_set (ExceptionalTx.Traces r') i None ;;
    store_ExceptionalTx tx (ExceptionalTx.set_Traces r' trs)).

(** The method as the reduced-size schema of the package has it, where a
    trace holds no steps: the same loop without the call on [p].  Of the
    record only [Traces] is involved. *)
Definition Transaction_ReleaseInternal (tx : ptr) : M unit :=
  r <- load_ExceptionalTx tx ;;
  range (ExceptionalTx.Traces r) (λ i _,
    r' <- load_ExceptionalTx tx ;;
    trs <- index_set (ExceptionalTx.Traces r') i None ;;
    store_ExceptionalTx tx (ExceptionalTx.set_Traces r' trs)).

(** ** Sealing a record *)

Section Seal.

(** Whether an external status code indicates failure.  The package
    stores the code and never inspects it, so the reading of the code
    is left open. *)
Variable status_failed : Z → bool.

(** Modelled from the spec: a node has an exception when its kind is not
    [NoException]. *)
Definition node_has_exception (n : Trace.t) : bool :=
  negb (Trace.ErrorCode n =? NoException).

(** Modelled from the spec: the total step count across all nodes. *)
Definition total_steps (nodes : list Trace.t) : Z :=
  foldr (λ n acc, Z.of_nat (length (Trace.Steps n)) + acc) 0 nodes.

(** Modelled from the spec: the nodes of a record, in sequence order. *)
Fixpoint load_nodes (ps : list ptr) : M (list Trace.t) :=
  match ps with
  | [] => ret []
  | p :: ps' =>
      n <- load_Trace p ;;
      ns <- load_nodes ps' ;;
      ret (n :: ns)
  end.

(** Modelled from the spec: the [Seal] operation of the Transaction
    Record Assembler, which sets the total step count and the
    HasException flag of a finished record.  The package declares the
    two fields; the code that fills them in lies outside the file.  The
    flag is true if the external status failed or any node of the
    record has a kind other than [NoException]. *)
Definition Seal (tx : ptr) : M unit :=
  r <- load_ExceptionalTx tx ;;
  nodes <- load_nodes (ExceptionalTx.Traces r) ;;
  store_ExceptionalTx tx
    (ExceptionalTx.set_summary r (total_steps nodes)
       (status_failed (ExceptionalTx.StatusCode r)
        || existsb node_has_exception nodes)).

End Seal.

(** ** The classifier as the specification words it

    [Classify(failureSignal) -> (message, kind)]: no signal gives the
    empty message and no exception.  Otherwise the exact string matches
    come first, in the order the specification lists them; then the
    patterns, a pattern being met by a message that begins with the fixed
    prefix, whatever detail follows; a signal that meets none of them is
    a precompiled-call error.  These definitions follow the text of the
    specification and use nothing of [CheckException]. *)




(** ** Vocabulary of the statements *)

(** The eleven messages compared literally. *)
Definition exact_messages : list string :=
  [ "evm: execution reverted"; "contract creation code storage out of gas";
    "out of gas"; "max call depth exceeded";
    "insufficient balance for transfer"; "evm: write protection";
    "evm: return data out of bounds"; "contract address collision";
    "evm: max code size exceeded"; "gas uint64 overflow";
    "empty call code" ]%string.

(** The pairing of literal messages and kinds. *)
Definition exact_rules : list (string * Z) :=
  [ ("evm: execution reverted", ExplicitRevert);
    ("contract creation code storage out of gas", DepositOutOfGas);
    ("out of gas", RunOutOfGas);
    ("max call depth exceeded", CallStackOverflow);
    ("insufficient balance for transfer", InsufficientBalance);
    ("evm: write protection", WritePermissionViolation);
    ("evm: return data out of bounds", ReturnDataOutOfBound);
    ("contract address collision", ContractAddressCollision);
    ("evm: max code size exceeded", MaxCodeSizeExceeded);
    ("gas uint64 overflow", GasUintOverflow);
    ("empty call code", EmptyCode) ]%string.

(** [no_newline d]: no character of [d] is a line feed. *)
Fixpoint no_newline (d : string) : bool :=
  match d with
  | EmptyString => true
  | String a d' => negb (Ascii.eqb a regexp.newline) && no_newline d'
  end.

(** A detail that [.+$] accepts: not empty, and free of line feeds. *)
Definition detail_ok (d : string) : bool :=
  match d with
  | EmptyString => false
  | String _ _ => no_newline d
  end.

(** [after_prefix p s]: what follows [p] in [s], when [s] begins with [p]. *)
Fixpoint after_prefix (p s : string) : option string :=
  match p with
  | EmptyString => Some s
  | String a p' =>
      match s with
      | String b s' => if Ascii.eqb b a then after_prefix p' s' else None
      | EmptyString => None
      end
  end.

(** [has_detail_after p s]: [s] is [p] followed by a detail that [.+$]
    accepts. *)
Definition has_detail_after (p s : string) : bool :=
  match after_prefix p s with
  | Some d => detail_ok d
  | None => false
  end.


(** A non-nil trace pointer that refers to an object of the store. *)
Definition live_Trace (h : Heap) (p : ptr) : Prop :=
  ∃ q, p = Some q ∧ is_Some (traces h !! q).

(** A released trace: every step pointer nil, everything else as it was. *)
Definition released (tr : Trace.t) : Trace.t :=
  Trace.set_Steps tr (replicate (length (Trace.Steps tr)) None).

(** The instructions a literal compiles to. *)
Definition literal_insts (p : string) : regexp.Regexp :=
  map (λ a, regexp.Char (regexp.Lit a)) (list_ascii_of_string p).

(** The traces of the store after the release of the traces [ps]. *)
Definition release_all (ps : list ptr) (m : gmap loc Trace.t) : gmap loc Trace.t :=
  foldl (λ m p, match p with Some q => alter released q m | None => m end) m ps.

(** Every record's trace pointers are non-nil, refer to objects of the
    store and are pairwise distinct, and no trace belongs to two
    records. *)
Definition exclusive_ownership (h : Heap) : Prop :=
  (∀ p r, txs h !! p = Some r →
     Forall (live_Trace h) (ExceptionalTx.Traces r) ∧
     NoDup (ExceptionalTx.Traces r)) ∧
  (∀ p1 p2 r1 r2 t, p1 ≠ p2 →
     txs h !! p1 = Some r1 → txs h !! p2 = Some r2 →
     t ∈ ExceptionalTx.Traces r1 → t ∉ ExceptionalTx.Traces r2).

(** ** The reduced-size schema

    The last variant of the package: a trace has no steps, a
    transaction record has no input and no created address, and
    [ReleaseInternal] only clears the record's own pointers. *)

Module Reduced.

Module Trace.
Record t : Type := mk {
  CallStackDepth : Z;
  Type_ : string;
  From : string;
  To : string;
  Value : string;
  GasLimit : Z;
  GasLeft : Z;
  StatusCode : Z;
  NewAddress : string;
  ErrorMsg : string;
  ErrorCode : Z
}.

Definition zero : t :=
  mk 0 EmptyString EmptyString EmptyString EmptyString 0 0 0 EmptyString
     EmptyString 0.
End Trace.

Module Transaction.
Record t : Type := mk {
  BlockNum : Z;
  TxIndex : Z;
  Nonce : Z;
  TxHash : string;
  From : string;
  To : string;
  Value : string;
  GasLimit : Z;
  GasPrice : string;
  GasUsed : Z;
  StatusCode : Z;
  NumSteps : Z;
  HasException : bool;
  Traces : list ptr
}.

Definition zero : t :=
  mk 0 0 0 EmptyString EmptyString EmptyString EmptyString 0 EmptyString 0 0 0
     false [].

(** [tx.Traces = traces] *)
Definition set_Traces (r : t) (traces : list ptr) : t :=
  mk (BlockNum r) (TxIndex r) (Nonce r) (TxHash r) (From r) (To r) (Value r)
     (GasLimit r) (GasPrice r) (GasUsed r) (StatusCode r) (NumSteps r)
     (HasException r) traces.
End Transaction.

Record Heap : Type := mkHeap {
  traces : gmap loc Trace.t;
  txs : gmap loc Transaction.t
}.

Definition M (A : Type) : Type := Heap → result (A * Heap).

Definition ret {A : Type} (a : A) : M A := λ h, Some (a, h).

Definition bind {A B : Type} (m : M A) (k : A → M B) : M B :=
  λ h, match m h with
       | Some (a, h') => k a h'
       | None => None
       end.

Definition panic {A : Type} : M A := λ _, None.

Definition new_Trace : M ptr :=
  λ h, let q := fresh (dom (traces h)) in
       Some (Some q, mkHeap (<[q := Trace.zero]> (traces h)) (txs h)).

Definition new_Transaction : M ptr :=
  λ h, let p := fresh (dom (txs h)) in
       Some (Some p, mkHeap (traces h) (<[p := Transaction.zero]> (txs h))).

Definition load_Transaction (tx : ptr) : M Transaction.t :=
  λ h, match tx with
       | Some p => r ← txs h !! p; Some (r, h)
       | None => None
       end.

Definition store_Transaction (tx : ptr) (r : Transaction.t) : M unit :=
  λ h, match tx with
       | Some p => _ ← txs h !! p; Some (tt, mkHeap (traces h) (<[p := r]> (txs h)))
       | None => None
       end.

Definition index_set {A : Type} (s : list A) (i : nat) (v : A) : M (list A) :=
  if decide (i < length s)%nat then ret (<[i := v]> s) else panic.

(** [for i := range s { body }] *)
Fixpoint range_from {A : Type} (i : nat) (s : list A) (body : nat → M unit)
  : M unit :=
  match s with
  | [] => ret tt
  | _ :: s' => bind (body i) (λ _, range_from (S i) s' body)
  end.

Definition NewTxRecord : M ptr :=
  bind new_Transaction (λ txRecord,
  bind (load_Transaction txRecord) (λ r,
  bind (store_Transaction txRecord (Transaction.set_Traces r [])) (λ _,
  ret txRecord))).

Definition Transaction_NewTrace (tx : ptr) : M ptr :=
  bind new_Trace (λ trace,
  bind (load_Transaction tx) (λ r,
  bind (store_Transaction tx
          (Transaction.set_Traces r (Transaction.Traces r ++ [trace]))) (λ _,
  ret trace))).

Definition Transaction_ReleaseInternal (tx : ptr) : M unit :=
  bind (load_Transaction tx) (λ r,
  range_from 0 (Transaction.Traces r) (λ i,
    bind (load_Transaction tx) (λ r',
    bind (index_set (Transaction.Traces r') i None) (λ trs,
    store_Transaction tx (Transaction.set_Traces r' trs))))).

End Reduced.

(** The kind that the chain of tests returns, as a function of the
    message. *)
Definition kind_of (msg : string) : Z :=
  if String.eqb msg "evm: execution reverted" then ExplicitRevert
  else if String.eqb msg "contract creation code storage out of gas" then DepositOutOfGas
  else if String.eqb msg "out of gas" then RunOutOfGas
  else if String.eqb msg "max call depth exceeded" then CallStackOverflow
  else if has_detail_after "stack underflow " msg then DataStackUnderflow
  else if has_detail_after "stack limit reached " msg then DataStackOverflow
  else if has_detail_after "invalid jump destination " msg then InvalidJumpDestination
  else if has_detail_after "invalid opcode " msg then InvalidInstruction
  else if String.eqb msg "insufficient balance for transfer" then InsufficientBalance
  else if String.eqb msg "evm: write protection" then WritePermissionViolation
  else if String.eqb msg "evm: return data out of bounds" then ReturnDataOutOfBound
  else if String.eqb msg "contract address collision" then ContractAddressCollision
  else if String.eqb msg "evm: max code size exceeded" then MaxCodeSizeExceeded
  else if String.eqb msg "gas uint64 overflow" then GasUintOverflow
  else if String.eqb msg "empty call code" then EmptyCode
  else PrecompiledCallError.

(** * Properties *)

(** ** The patterns of the classifier *)

Module regexp_facts.
Import regexp.

Lemma matches_dot_plus_end (b : bool) (s : string) :
  matches_here [Plus AnyCharNotNL; EndText] b s = detail_ok s.
Proof.
  destruct s as [|a s]; [reflexivity|].
  cbn [matches_here detail_ok no_newline accepts]. f_equal.
  induction s as [|c s IH]; [reflexivity|].
  cbn [no_newline]. rewrite orb_false_r. f_equal. exact IH.
Qed.

Lemma matches_literal_then_detail (p : string) (b : bool) (s : string) :
  matches_here (literal_insts p ++ [Plus AnyCharNotNL; EndText]) b s
  = has_detail_after p s.
Proof.
  revert b s. induction p as [|a p IH]; intros b s.
  - apply matches_dot_plus_end.
  - unfold has_detail_after.
    destruct s as [|c s]; [reflexivity|].
    cbn [literal_insts list_ascii_of_string map app matches_here accepts after_prefix].
    destruct (Ascii.eqb c a); [|reflexivity].
    rewrite andb_true_l. apply IH.
Qed.

Lemma search_anchored_later (re : Regexp) (s : string) :
  search (BeginText :: re) false s = false.
Proof. induction s as [|a s IH]; [reflexivity|]. simpl. exact IH. Qed.

Lemma FindAllString_anchored (re : Regexp) (s : string) :
  FindAllString_nonempty (BeginText :: re) s = matches_here re true s.
Proof.
  unfold FindAllString_nonempty.
  destruct s as [|a s]; cbn [search matches_here andb].
  - apply orb_false_r.
  - rewrite search_anchored_later. apply orb_false_r.
Qed.

End regexp_facts.

Lemma matches_pattern_literal_detail (pat p msg : string) :
  regexp.MustCompile pat
  = Some (regexp.BeginText
            :: literal_insts p ++ [regexp.Plus regexp.AnyCharNotNL; regexp.EndText]) →
  matches_pattern pat msg = Some (has_detail_after p msg).
Proof.
  intros Hc. unfold matches_pattern. rewrite Hc. cbn [mbind option_bind].
  rewrite regexp_facts.FindAllString_anchored.
  by rewrite regexp_facts.matches_literal_then_detail.
Qed.

Lemma matches_stack_underflow (msg : string) :
  matches_pattern "^stack underflow .+$" msg
  = Some (has_detail_after "stack underflow " msg).
Proof. by apply matches_pattern_literal_detail. Qed.

Lemma matches_stack_limit (msg : string) :
  matches_pattern "^stack limit reached .+$" msg
  = Some (has_detail_after "stack limit reached " msg).
Proof. by apply matches_pattern_literal_detail. Qed.

Lemma matches_invalid_jump (msg : string) :
  matches_pattern "^invalid jump destination .+$" msg
  = Some (has_detail_after "invalid jump destination " msg).
Proof. by apply matches_pattern_literal_detail. Qed.

Lemma matches_invalid_opcode (msg : string) :
  matches_pattern "^invalid opcode .+$" msg
  = Some (has_detail_after "invalid opcode " msg).
Proof. by apply matches_pattern_literal_detail. Qed.

(** The [switch] of [CheckException] as the chain of tests it performs. *)
Lemma CheckException_unfold (msg : string) :
  CheckException (Some msg) = Some (msg,
    if String.eqb msg "evm: execution reverted" then ExplicitRevert
    else if String.eqb msg "contract creation code storage out of gas" then DepositOutOfGas
    else if String.eqb msg "out of gas" then RunOutOfGas
    else if String.eqb msg "max call depth exceeded" then CallStackOverflow
    else if has_detail_after "stack underflow " msg then DataStackUnderflow
    else if has_detail_after "stack limit reached " msg then DataStackOverflow
    else if has_detail_after "invalid jump destination " msg then InvalidJumpDestination
    else if has_detail_after "invalid opcode " msg then InvalidInstruction
    else if String.eqb msg "insufficient balance for transfer" then InsufficientBalance
    else if String.eqb msg "evm: write protection" then WritePermissionViolation
    else if String.eqb msg "evm: return data out of bounds" then ReturnDataOutOfBound
    else if String.eqb msg "contract address collision" then ContractAddressCollision
    else if String.eqb msg "evm: max code size exceeded" then MaxCodeSizeExceeded
    else if String.eqb msg "gas uint64 overflow" then GasUintOverflow
    else if String.eqb msg "empty call code" then EmptyCode
    else PrecompiledCallError).
Proof.
  unfold CheckException, CheckException_run, CheckException_cases.
  cbn [switch].
  rewrite matches_stack_underflow, matches_stack_limit,
    matches_invalid_jump, matches_invalid_opcode.
  unfold is_error. cbn [mbind option_bind].
  repeat match goal with
         | |- context [if ?b then _ else _] => destruct b; [reflexivity|]
         end.
  reflexivity.
Qed.

Example CheckException_out_of_gas :
  CheckException (Some "out of gas"%string)
  = Some ("out of gas"%string, RunOutOfGas).
Proof. reflexivity. Qed.

Example CheckException_underflow_at_pc :
  CheckException (Some "stack underflow at pc=12"%string)
  = Some ("stack underflow at pc=12"%string, DataStackUnderflow).
Proof. reflexivity. Qed.

Example CheckException_unexpected :
  CheckException (Some "unexpected precompile failure xyz"%string)
  = Some ("unexpected precompile failure xyz"%string, PrecompiledCallError).
Proof. reflexivity. Qed.

Example rules_evaluated_out_of_gas :
  rules_evaluated (Some "out of gas"%string) = Some 3%nat.
Proof. reflexivity. Qed.

Example rules_evaluated_unexpected :
  rules_evaluated (Some "unexpected precompile failure xyz"%string) = Some 15%nat.
Proof. reflexivity. Qed.

Lemma append_String (a : ascii) (p d : string) :
  String a p +:+ d = String a (p +:+ d).
Proof. reflexivity. Qed.

Lemma append_empty (d : string) : EmptyString +:+ d = d.
Proof. reflexivity. Qed.

Lemma after_prefix_app (p d : string) : after_prefix p (p +:+ d) = Some d.
Proof.
  induction p as [|a p IH]; [reflexivity|].
  rewrite append_String. cbn [after_prefix]. by rewrite Ascii.eqb_refl.
Qed.

Lemma after_prefix_Some (p s d : string) :
  after_prefix p s = Some d → s = p +:+ d.
Proof.
  revert s. induction p as [|a p IH]; intros s H.
  - cbn in H. by injection H.
  - destruct s as [|b s]; [discriminate|]. cbn [after_prefix] in H.
    destruct (Ascii.eqb_spec b a) as [->|]; [|discriminate].
    rewrite append_String. f_equal. by apply IH.
Qed.

Lemma prefix_app (p q d : string) : String.prefix p ((p +:+ q) +:+ d) = true.
Proof.
  induction p as [|a p IH]; [by destruct ((EmptyString +:+ q) +:+ d)|].
  rewrite !append_String. cbn [String.prefix].
  by destruct (ascii_dec a a).
Qed.

(** A message that a pattern of the source accepts begins with the
    pattern's words. *)
Lemma has_detail_after_prefix (p q s : string) :
  has_detail_after (p +:+ q) s = true → String.prefix p s = true.
Proof.
  unfold has_detail_after.
  destruct (after_prefix (p +:+ q) s) as [d|] eqn:E; [|discriminate].
  intros _. apply after_prefix_Some in E. subst s. apply prefix_app.
Qed.

Lemma has_detail_after_app (p d : string) :
  d ≠ EmptyString → no_newline d = true → has_detail_after p (p +:+ d) = true.
Proof.
  intros Hd Hn. unfold has_detail_after. rewrite after_prefix_app.
  destruct d; [done|exact Hn].
Qed.

Lemma CheckException_kind_range (msg : string) :
  ∃ kind, CheckException (Some msg) = Some (msg, kind) ∧ 1 ≤ kind ≤ 16.
Proof.
  eexists. split; [apply CheckException_unfold|].
  repeat match goal with
         | |- context [if ?b then _ else _] => destruct b; [by compute|]
         end.
  by compute.
Qed.

Lemma exact_rules_classified :
  Forall (λ r, CheckException (Some r.1) = Some (r.1, r.2)) exact_rules.
Proof. repeat constructor. Qed.

Lemma not_exact_eqb (msg lit : string) :
  msg ∉ exact_messages → lit ∈ exact_messages → String.eqb msg lit = false.
Proof. intros Hn Hl. apply String.eqb_neq. by intros ->. Qed.

Lemma CheckException_default (msg : string) :
  msg ∉ exact_messages →
  has_detail_after "stack underflow " msg = false →
  has_detail_after "stack limit reached " msg = false →
  has_detail_after "invalid jump destination " msg = false →
  has_detail_after "invalid opcode " msg = false →
  CheckException (Some msg) = Some (msg, PrecompiledCallError).
Proof.
  intros Hn H1 H2 H3 H4. rewrite CheckException_unfold, H1, H2, H3, H4.
  rewrite !(not_exact_eqb msg) by (done || (unfold exact_messages; set_solver)).
  reflexivity.
Qed.

Lemma no_prefix_no_detail (p q msg : string) :
  String.prefix p msg = false → has_detail_after (p +:+ q) msg = false.
Proof.
  intros Hp. destruct (has_detail_after (p +:+ q) msg) eqn:E; [|done].
  apply has_detail_after_prefix in E. congruence.
Qed.

(** C1: [CheckException] never panics and classifies every input: each of
    the eleven literal messages gets its paired kind; a non-nil signal
    that is none of the literals and that no pattern rule accepts (a
    fortiori one that begins with none of the four prefixes) gets
    [PrecompiledCallError]; and every input gets a message and a kind
    between 0 and 16, the kind being [NoException] only for nil. *)
Theorem CheckException_total_reference :
  (∀ lit kind, (lit, kind) ∈ exact_rules →
     CheckException (Some lit) = Some (lit, kind)) ∧
  (∀ msg, msg ∉ exact_messages →
     has_detail_after "stack underflow " msg = false →
     has_detail_after "stack limit reached " msg = false →
     has_detail_after "invalid jump destination " msg = false →
     has_detail_after "invalid opcode " msg = false →
     CheckException (Some msg) = Some (msg, PrecompiledCallError)) ∧
  (∀ msg, msg ∉ exact_messages →
     String.prefix "stack underflow" msg = false →
     String.prefix "stack limit reached" msg = false →
     String.prefix "invalid jump destination" msg = false →
     String.prefix "invalid opcode" msg = false →
     CheckException (Some msg) = Some (msg, PrecompiledCallError)) ∧
  (∀ err, ∃ msg kind, CheckException err = Some (msg, kind) ∧
     0 ≤ kind ≤ 16 ∧ (kind = NoException ↔ err = None)).
Proof.
  split; [|split; [|split]].
  - intros lit kind Hin.
    pose proof (proj1 (Forall_forall _ _) exact_rules_classified _ Hin) as H.
    exact H.
  - apply CheckException_default.
  - intros msg Hn H1 H2 H3 H4. apply CheckException_default; [done|..].
    + by apply (no_prefix_no_detail "stack underflow" " ").
    + by apply (no_prefix_no_detail "stack limit reached" " ").
    + by apply (no_prefix_no_detail "invalid jump destination" " ").
    + by apply (no_prefix_no_detail "invalid opcode" " ").
  - intros [msg|].
    + destruct (CheckException_kind_range msg) as (kind & -> & Hk).
      exists msg, kind. split; [done|]. split; [lia|].
      unfold NoException. split; [lia|done].
    + exists EmptyString, NoException. split; [done|].
      unfold NoException. split; [lia|done].
Qed.

Lemma CheckException_total_reference_witness :
  CheckException (Some "unexpected precompile failure xyz"%string)
  = Some ("unexpected precompile failure xyz"%string, PrecompiledCallError).
Proof.
  apply (proj1 (proj2 (proj2 CheckException_total_reference)));
    [unfold exact_messages; rewrite !not_elem_of_cons; repeat split;
       [discriminate.. | apply not_elem_of_nil]
    | reflexivity..].
Defined.

(** ** The pattern rules *)

Lemma CheckException_prefix_space_counterexamples :
  let colon := "stack underflow: 3"%string in
  let bare := "stack underflow "%string in
  let two_lines :=
    ("stack underflow at pc=12" +:+ String regexp.newline "depth 3")%string in
  (String.prefix "stack underflow" colon = true ∧
   CheckException (Some colon) = Some (colon, PrecompiledCallError)) ∧
  (String.prefix "stack underflow" bare = true ∧
   CheckException (Some bare) = Some (bare, PrecompiledCallError)) ∧
  (String.prefix "stack underflow" two_lines = true ∧
   CheckException (Some two_lines) = Some (two_lines, PrecompiledCallError)) ∧
  PrecompiledCallError ≠ DataStackUnderflow.
Proof. repeat split; (reflexivity || discriminate). Qed.

(** C2 (amended): a message made of "stack underflow" (respectively
    "stack limit reached", "invalid jump destination", "invalid opcode"),
    one space, and a detail that is not empty and holds no line feed is
    classified DataStackUnderflow (respectively DataStackOverflow,
    InvalidJumpDestination, InvalidInstruction). *)
Theorem CheckException_pattern_rules (d : string) :
  d ≠ EmptyString → no_newline d = true →
  CheckException (Some ("stack underflow " +:+ d))
    = Some ("stack underflow " +:+ d, DataStackUnderflow) ∧
  CheckException (Some ("stack limit reached " +:+ d))
    = Some ("stack limit reached " +:+ d, DataStackOverflow) ∧
  CheckException (Some ("invalid jump destination " +:+ d))
    = Some ("invalid jump destination " +:+ d, InvalidJumpDestination) ∧
  CheckException (Some ("invalid opcode " +:+ d))
    = Some ("invalid opcode " +:+ d, InvalidInstruction).
Proof.
  intros Hd Hn.
  pose proof (has_detail_after_app "stack underflow " d Hd Hn) as H1.
  pose proof (has_detail_after_app "stack limit reached " d Hd Hn) as H2.
  pose proof (has_detail_after_app "invalid jump destination " d Hd Hn) as H3.
  pose proof (has_detail_after_app "invalid opcode " d Hd Hn) as H4.
  repeat split; rewrite CheckException_unfold.
  - by rewrite H1.
  - by rewrite H2.
  - by rewrite H3.
  - by rewrite H4.
Qed.

Lemma CheckException_pattern_rules_witness :
  CheckException (Some "stack underflow at pc=12"%string)
    = Some ("stack underflow at pc=12"%string, DataStackUnderflow) ∧
  CheckException (Some "invalid opcode 0xfe"%string)
    = Some ("invalid opcode 0xfe"%string, InvalidInstruction).
Proof.
  split.
  - apply (CheckException_pattern_rules "at pc=12"); [discriminate|reflexivity].
  - apply (CheckException_pattern_rules "0xfe"); [discriminate|reflexivity].
Defined.

(** ** Messages and kinds *)

Lemma CheckException_empty_message :
  CheckException (Some EmptyString) = Some (EmptyString, PrecompiledCallError) ∧
  PrecompiledCallError ≠ NoException.
Proof. split; [reflexivity|discriminate]. Qed.

(** C4 (amended): on every input a returned kind of [NoException] comes
    with the empty message; and on every input other than a non-nil
    signal whose own message is empty, the returned message is non-empty
    if and only if the returned kind is not [NoException]. *)
Theorem CheckException_message_iff_kind (err : option string) :
  ∃ msg kind, CheckException err = Some (msg, kind) ∧
    (kind = NoException → msg = EmptyString) ∧
    (err ≠ Some EmptyString → (msg ≠ EmptyString ↔ kind ≠ NoException)).
Proof.
  destruct err as [msg|].
  - destruct (CheckException_kind_range msg) as (kind & -> & Hk).
    exists msg, kind. unfold NoException.
    split; [done|]. split; [lia|].
    intros Hne. split; [lia|]. intros _ ->. by apply Hne.
  - exists EmptyString, NoException. split; [done|]. split; [done|].
    intros _. by split.
Qed.

Lemma CheckException_message_iff_kind_witness :
  ∃ msg kind, CheckException (Some "out of gas"%string) = Some (msg, kind) ∧
    (kind = NoException → msg = EmptyString) ∧
    (msg ≠ EmptyString ↔ kind ≠ NoException).
Proof.
  destruct (CheckException_message_iff_kind (Some "out of gas"%string))
    as (msg & kind & H & H0 & Hiff).
  exists msg, kind. split; [exact H|]. split; [exact H0|].
  apply Hiff. discriminate.
Defined.

(** C5: for the nil error [CheckException] returns the empty message and
    [NoException], which is code 0, without evaluating the condition of
    any clause. *)
Theorem CheckException_nil :
  CheckException None = Some (EmptyString, NoException) ∧
  NoException = 0 ∧
  rules_evaluated None = Some 0%nat.
Proof. repeat split. Qed.

Lemma switch_count (cases : list case_clause) (default : Z) (msg : string)
    (k : Z) (n : nat) :
  switch cases default msg = Some (k, n) →
  (n ≤ length cases)%nat ∧ (cases ≠ [] → (1 ≤ n)%nat).
Proof.
  revert k n. induction cases as [|[cond kind] cases IH]; intros k n H.
  - cbn in H. injection H as _ <-. by split.
  - cbn [switch] in H. destruct (cond msg) as [[|]|]; cbn in H; [| |done].
    + injection H as _ <-. cbn [length]. split; [lia|done].
    + destruct (switch cases default msg) as [[k' n']|]; cbn in H; [|done].
      injection H as _ <-. destruct (IH k' n' eq_refl) as [Hle _].
      cbn [length]. split; [lia|]. intros _. lia.
Qed.

(** For a non-nil error at least the first condition is evaluated. *)
Lemma rules_evaluated_signal (msg : string) :
  ∃ n, rules_evaluated (Some msg) = Some n ∧ (1 ≤ n ≤ 15)%nat.
Proof.
  pose proof (CheckException_unfold msg) as Hc.
  unfold rules_evaluated. unfold CheckException in Hc.
  unfold CheckException_run in *.
  destruct (switch CheckException_cases PrecompiledCallError msg)
    as [[k n]|] eqn:Es; [|done].
  apply switch_count in Es as [Hle Hge].
  exists n. split; [done|]. split; [by apply Hge|exact Hle].
Qed.

(** C9: for a non-nil error the returned message is the error's own
    message, unchanged. *)
Theorem CheckException_message_verbatim (msg : string) :
  ∃ kind, CheckException (Some msg) = Some (msg, kind).
Proof. eexists. apply CheckException_unfold. Qed.

(** ** Allocation *)

Lemma fresh_Trace_unused (h : Heap) : traces h !! fresh (dom (traces h)) = None.
Proof. apply not_elem_of_dom, is_fresh. Qed.

Lemma fresh_ExceptionalTx_unused (h : Heap) : txs h !! fresh (dom (txs h)) = None.
Proof. apply not_elem_of_dom, is_fresh. Qed.

Lemma NewTxRecord_run (h : Heap) :
  NewTxRecord h
  = Some (Some (fresh (dom (txs h))),
          mkHeap (traces h)
            (<[fresh (dom (txs h)) := ExceptionalTx.zero]> (txs h))).
Proof.
  unfold NewTxRecord, bind, new_ExceptionalTx, load_ExceptionalTx,
    store_ExceptionalTx, ret.
  cbn. repeat (rewrite lookup_insert_eq; cbn). by rewrite !insert_insert_eq.
Qed.

(** C8: [NewTxRecord] returns a pointer to a record at a location that
    was not in use, leaving every other object as it was; the record has
    no traces, a false HasException flag, and zero block number,
    transaction index, nonce, step count and status code. *)
Theorem NewTxRecord_fresh_empty (h : Heap) :
  ∃ p r h',
    NewTxRecord h = Some (Some p, h') ∧
    txs h !! p = None ∧
    txs h' !! p = Some r ∧
    (∀ p', p' ≠ p → txs h' !! p' = txs h !! p') ∧
    traces h' = traces h ∧
    ExceptionalTx.Traces r = [] ∧
    length (ExceptionalTx.Traces r) = 0%nat ∧
    ExceptionalTx.HasException r = false ∧
    ExceptionalTx.BlockNum r = 0 ∧
    ExceptionalTx.TxIndex r = 0 ∧
    ExceptionalTx.Nonce r = 0 ∧
    ExceptionalTx.NumSteps r = 0 ∧
    ExceptionalTx.StatusCode r = 0.
Proof.
  eexists _, ExceptionalTx.zero, _. split; [apply NewTxRecord_run|].
  split; [apply fresh_ExceptionalTx_unused|].
  split; [apply lookup_insert_eq|].
  split; [intros p' Hp'; by apply lookup_insert_ne|].
  by repeat split.
Qed.

Lemma NewTrace_run (h : Heap) (p : loc) (r : ExceptionalTx.t) :
  txs h !! p = Some r →
  ExceptionalTx_NewTrace (Some p) h
  = Some (Some (fresh (dom (traces h))),
          mkHeap (<[fresh (dom (traces h)) := Trace.zero]> (traces h))
            (<[p := ExceptionalTx.set_Traces r
                      (ExceptionalTx.Traces r ++ [Some (fresh (dom (traces h)))])]>
               (txs h))).
Proof.
  intros Hr.
  unfold ExceptionalTx_NewTrace, bind, new_Trace, load_Trace, store_Trace,
    load_ExceptionalTx, store_ExceptionalTx, ret.
  cbn. repeat (rewrite lookup_insert_eq; cbn). rewrite Hr. cbn. rewrite Hr. cbn.
  by rewrite !insert_insert_eq.
Qed.

(** C7: [NewTrace] on a record appends one pointer to the record's
    traces: the length grows by one, the earlier entries keep their
    positions, no other field of the record and no other object changes;
    the pointer returned is the appended one, and it refers to a new
    trace with no steps. *)
Theorem NewTrace_appends (h : Heap) (p : loc) (r : ExceptionalTx.t) :
  txs h !! p = Some r →
  ∃ q node r' h',
    ExceptionalTx_NewTrace (Some p) h = Some (Some q, h') ∧
    txs h' !! p = Some r' ∧
    ExceptionalTx.Traces r' = ExceptionalTx.Traces r ++ [Some q] ∧
    length (ExceptionalTx.Traces r') = S (length (ExceptionalTx.Traces r)) ∧
    (∀ i x, ExceptionalTx.Traces r !! i = Some x →
            ExceptionalTx.Traces r' !! i = Some x) ∧
    last (ExceptionalTx.Traces r') = Some (Some q) ∧
    r' = ExceptionalTx.set_Traces r (ExceptionalTx.Traces r') ∧
    traces h !! q = None ∧
    traces h' !! q = Some node ∧
    Trace.Steps node = [] ∧
    length (Trace.Steps node) = 0%nat ∧
    (∀ q', q' ≠ q → traces h' !! q' = traces h !! q') ∧
    (∀ p', p' ≠ p → txs h' !! p' = txs h !! p').
Proof.
  intros Hr. eexists _, Trace.zero, _, _.
  split; [by apply NewTrace_run|]. cbn [txs traces].
  split; [apply lookup_insert_eq|]. cbn [ExceptionalTx.set_Traces ExceptionalTx.Traces].
  split; [done|].
  split; [rewrite length_app; cbn; lia|].
  split; [intros i x Hi; by apply lookup_app_l_Some|].
  split; [apply last_snoc|].
  split; [done|].
  split; [apply fresh_Trace_unused|].
  split; [apply lookup_insert_eq|].
  split; [done|]. split; [done|].
  split; intros ? ?; by apply lookup_insert_ne.
Qed.

Lemma NewTrace_appends_witness :
  ∃ q node r' h',
    ExceptionalTx_NewTrace (Some 1%positive)
      (mkHeap ∅ {[ 1%positive := ExceptionalTx.zero ]}) = Some (Some q, h') ∧
    txs h' !! 1%positive = Some r' ∧
    ExceptionalTx.Traces r' = [Some q] ∧
    traces h' !! q = Some node ∧
    Trace.Steps node = [].
Proof.
  destruct (NewTrace_appends (mkHeap ∅ {[ 1%positive := ExceptionalTx.zero ]})
              1%positive ExceptionalTx.zero)
    as (q & node & r' & h' & H1 & H2 & H3 & _ & _ & _ & _ & _ & H4 & H5 & _);
    [reflexivity|].
  exists q, node, r', h'. by repeat split.
Defined.

(** ** Release *)

Lemma Heap_eta (h : Heap) : mkHeap (traces h) (txs h) = h.
Proof. by destruct h. Qed.

Lemma set_Steps_id (tr : Trace.t) : Trace.set_Steps tr (Trace.Steps tr) = tr.
Proof. by destruct tr. Qed.

Lemma set_Traces_id (r : ExceptionalTx.t) :
  ExceptionalTx.set_Traces r (ExceptionalTx.Traces r) = r.
Proof. by destruct r. Qed.

Lemma released_idemp (tr : Trace.t) : released (released tr) = released tr.
Proof.
  unfold released. cbn [Trace.set_Steps Trace.Steps].
  by rewrite length_replicate.
Qed.

Lemma index_set_middle {A : Type} (pre suf : list A) (x v : A) (h : Heap) :
  index_set (pre ++ x :: suf) (length pre) v h = Some (pre ++ v :: suf, h).
Proof.
  unfold index_set. rewrite decide_True.
  - unfold ret. rewrite insert_app_r_alt by lia. by rewrite Nat.sub_diag.
  - rewrite length_app. cbn. lia.
Qed.

(** The loop of [Trace.ReleaseInternal], from index [length pre] on. *)
Lemma release_steps_from (q : loc) (suf pre : list (option OneStep.t))
    (tr : Trace.t) (h : Heap) :
  traces h !! q = Some tr →
  Trace.Steps tr = pre ++ suf →
  range_from (length pre) suf (λ i _,
    tr' <- load_Trace (Some q) ;;
    steps <- index_set (Trace.Steps tr') i None ;;
    store_Trace (Some q) (Trace.set_Steps tr' steps)) h
  = Some (tt, mkHeap
      (<[q := Trace.set_Steps tr (pre ++ replicate (length suf) None)]> (traces h))
      (txs h)).
Proof.
  revert pre tr h. induction suf as [|x suf IH]; intros pre tr h Hq Hs.
  - cbn [range_from length replicate]. unfold ret.
    rewrite app_nil_r in *. rewrite <- Hs, set_Steps_id.
    by rewrite insert_id, Heap_eta.
  - cbn [range_from]. unfold bind at 1. unfold bind at 1.
    unfold load_Trace at 1. rewrite Hq. cbn [mbind option_bind].
    unfold bind at 1. rewrite Hs, index_set_middle.
    unfold store_Trace. rewrite Hq. cbn [mbind option_bind].
    replace (S (length pre)) with (length (pre ++ [None : option OneStep.t]))
      by (rewrite length_app; cbn; lia).
    rewrite (IH (pre ++ [None]) (Trace.set_Steps tr (pre ++ None :: suf))).
    + cbn [traces txs Trace.set_Steps]. rewrite insert_insert_eq.
      by rewrite <- app_assoc.
    + cbn [traces]. apply lookup_insert_eq.
    + cbn [Trace.set_Steps Trace.Steps]. by rewrite <- app_assoc.
Qed.

Lemma Trace_ReleaseInternal_run (h : Heap) (q : loc) (tr : Trace.t) :
  traces h !! q = Some tr →
  Trace_ReleaseInternal (Some q) h
  = Some (tt, mkHeap (<[q := released tr]> (traces h)) (txs h)).
Proof.
  intros Hq. unfold Trace_ReleaseInternal, range.
  unfold bind at 1. unfold load_Trace at 1. rewrite Hq. cbn [mbind option_bind].
  by apply (release_steps_from q (Trace.Steps tr) []).
Qed.

Lemma Trace_ReleaseInternal_nil (h : Heap) : Trace_ReleaseInternal None h = None.
Proof. reflexivity. Qed.

Lemma insert_released (m : gmap loc Trace.t) (q : loc) (tr : Trace.t) :
  m !! q = Some tr → <[q := released tr]> m = alter released q m.
Proof.
  intros Hq. apply map_eq. intros q'.
  destruct (decide (q = q')) as [<-|Hne].
  - by rewrite lookup_insert_eq, lookup_alter_eq, Hq.
  - by rewrite lookup_insert_ne, lookup_alter_ne.
Qed.

Lemma release_all_lookup (ps : list ptr) (m : gmap loc Trace.t) (q : loc) :
  release_all ps m !! q
  = if decide (Some q ∈ ps) then released <$> m !! q else m !! q.
Proof.
  revert m. induction ps as [|[q0|] ps IH]; intros m.
  - cbn. by rewrite decide_False by apply not_elem_of_nil.
  - cbn [release_all foldl]. fold (release_all ps (alter released q0 m)).
    rewrite IH. destruct (decide (q0 = q)) as [->|Hne].
    + rewrite lookup_alter_eq.
      rewrite (decide_True (P:=Some q ∈ Some q :: ps)) by apply list_elem_of_here.
      case_decide; [|done].
      destruct (m !! q) as [tr|]; [|done]. cbn. by rewrite released_idemp.
    + rewrite lookup_alter_ne by done.
      assert (Some q ∈ Some q0 :: ps ↔ Some q ∈ ps) as Hiff.
      { rewrite elem_of_cons. split; [|by right].
        intros [Heq|Hin]; [congruence|done]. }
      repeat case_decide; first [done | exfalso; tauto].
  - cbn [release_all foldl]. fold (release_all ps m). rewrite IH.
    assert (Some q ∈ None :: ps ↔ Some q ∈ ps) as Hiff.
    { rewrite elem_of_cons. split; [|by right].
      intros [Heq|Hin]; [discriminate|done]. }
    repeat case_decide; first [done | exfalso; tauto].
Qed.

Lemma live_Trace_insert (h : Heap) (q : loc) (tr : Trace.t)
    (m : gmap loc ExceptionalTx.t) (p : ptr) :
  live_Trace h p → live_Trace (mkHeap (<[q := tr]> (traces h)) m) p.
Proof.
  intros (q' & -> & Hq'). exists q'. split; [done|]. cbn [traces].
  destruct (decide (q = q')) as [<-|Hne].
  - rewrite lookup_insert_eq. by eexists.
  - by rewrite lookup_insert_ne.
Qed.

(** The loop of [ExceptionalTx.ReleaseInternal], from index [length pre]
    on, when the traces still to visit are live. *)
Lemma release_traces_from (p : loc) (suf pre : list ptr)
    (r : ExceptionalTx.t) (h : Heap) :
  txs h !! p = Some r →
  ExceptionalTx.Traces r = pre ++ suf →
  Forall (live_Trace h) suf →
  range_from (length pre) suf (λ i t,
    Trace_ReleaseInternal t ;;
    r' <- load_ExceptionalTx (Some p) ;;
    trs <- index_set (ExceptionalTx.Traces r') i None ;;
    store_ExceptionalTx (Some p) (ExceptionalTx.set_Traces r' trs)) h
  = Some (tt, mkHeap (release_all suf (traces h))
      (<[p := ExceptionalTx.set_Traces r (pre ++ replicate (length suf) None)]>
         (txs h))).
Proof.
  revert pre r h. induction suf as [|x suf IH]; intros pre r h Hp Hs Hlive.
  - cbn [range_from length replicate release_all foldl]. unfold ret.
    rewrite app_nil_r in *. rewrite <- Hs, set_Traces_id.
    by rewrite insert_id, Heap_eta.
  - apply Forall_cons in Hlive as [(q & -> & tr & Hq) Hlive].
    cbn [range_from]. unfold bind at 1. unfold bind at 1.
    rewrite (Trace_ReleaseInternal_run h q tr Hq).
    unfold bind at 1. unfold load_ExceptionalTx at 1. cbn [txs].
    rewrite Hp. cbn [mbind option_bind].
    unfold bind at 1. rewrite Hs, index_set_middle.
    unfold store_ExceptionalTx. cbn [txs traces]. rewrite Hp.
    cbn [mbind option_bind].
    replace (S (length pre)) with (length (pre ++ [None : ptr]))
      by (rewrite length_app; cbn; lia).
    rewrite (IH (pre ++ [None])
               (ExceptionalTx.set_Traces r (pre ++ None :: suf))).
    + cbn [traces txs ExceptionalTx.set_Traces]. rewrite insert_insert_eq.
      rewrite <- app_assoc. cbn [release_all foldl app length replicate].
      by rewrite (insert_released _ _ _ Hq).
    + cbn [txs]. apply lookup_insert_eq.
    + cbn [ExceptionalTx.set_Traces ExceptionalTx.Traces].
      by rewrite <- app_assoc.
    + eapply Forall_impl; [exact Hlive|]. intros t Ht.
      by apply live_Trace_insert.
Qed.

Lemma ReleaseInternal_run (h : Heap) (p : loc) (r : ExceptionalTx.t) :
  txs h !! p = Some r →
  Forall (live_Trace h) (ExceptionalTx.Traces r) →
  ExceptionalTx_ReleaseInternal (Some p) h
  = Some (tt, mkHeap (release_all (ExceptionalTx.Traces r) (traces h))
      (<[p := ExceptionalTx.set_Traces r
                (replicate (length (ExceptionalTx.Traces r)) None)]> (txs h))).
Proof.
  intros Hp Hlive. unfold ExceptionalTx_ReleaseInternal, range.
  unfold bind at 1. unfold load_ExceptionalTx at 1. rewrite Hp.
  cbn [mbind option_bind].
  by apply (release_traces_from p (ExceptionalTx.Traces r) []).
Qed.

Lemma clear_traces_from (p : loc) (suf pre : list ptr)
    (r : ExceptionalTx.t) (h : Heap) :
  txs h !! p = Some r →
  ExceptionalTx.Traces r = pre ++ suf →
  range_from (length pre) suf (λ i _,
    r' <- load_ExceptionalTx (Some p) ;;
    trs <- index_set (ExceptionalTx.Traces r') i None ;;
    store_ExceptionalTx (Some p) (ExceptionalTx.set_Traces r' trs)) h
  = Some (tt, mkHeap (traces h)
      (<[p := ExceptionalTx.set_Traces r (pre ++ replicate (length suf) None)]>
         (txs h))).
Proof.
  revert pre r h. induction suf as [|x suf IH]; intros pre r h Hp Hs.
  - cbn [range_from length replicate]. unfold ret.
    rewrite app_nil_r in *. rewrite <- Hs, set_Traces_id.
    by rewrite insert_id, Heap_eta.
  - cbn [range_from]. unfold bind at 1. unfold bind at 1.
    unfold load_ExceptionalTx at 1. rewrite Hp. cbn [mbind option_bind].
    unfold bind at 1. rewrite Hs, index_set_middle.
    unfold store_ExceptionalTx. rewrite Hp. cbn [mbind option_bind].
    replace (S (length pre)) with (length (pre ++ [None : ptr]))
      by (rewrite length_app; cbn; lia).
    rewrite (IH (pre ++ [None])
               (ExceptionalTx.set_Traces r (pre ++ None :: suf))).
    + cbn [traces txs ExceptionalTx.set_Traces]. rewrite insert_insert_eq.
      by rewrite <- app_assoc.
    + cbn [txs]. apply lookup_insert_eq.
    + cbn [ExceptionalTx.set_Traces ExceptionalTx.Traces].
      by rewrite <- app_assoc.
Qed.

(** Without the call on the traces the release never panics, whatever
    the record's trace pointers are. *)
Lemma Transaction_ReleaseInternal_run (h : Heap) (p : loc) (r : ExceptionalTx.t) :
  txs h !! p = Some r →
  Transaction_ReleaseInternal (Some p) h
  = Some (tt, mkHeap (traces h)
      (<[p := ExceptionalTx.set_Traces r
                (replicate (length (ExceptionalTx.Traces r)) None)]> (txs h))).
Proof.
  intros Hp. unfold Transaction_ReleaseInternal, range.
  unfold bind at 1. unfold load_ExceptionalTx at 1. rewrite Hp.
  cbn [mbind option_bind].
  by apply (clear_traces_from p (ExceptionalTx.Traces r) []).
Qed.

(** A record that holds a nil trace pointer, as a released record does:
    releasing it panics. *)
Lemma ReleaseInternal_nil_trace_panics :
  let r := ExceptionalTx.set_Traces ExceptionalTx.zero [None] in
  let h := mkHeap {[ 1%positive := released Trace.zero ]} {[ 1%positive := r ]} in
  (tx <- NewTxRecord ;;
   _ <- ExceptionalTx_NewTrace tx ;;
   ExceptionalTx_ReleaseInternal tx ;;
   ret tx) empty_heap = Some (Some 1%positive, h) ∧
  txs h !! 1%positive = Some r ∧
  ExceptionalTx_ReleaseInternal (Some 1%positive) h = None.
Proof. repeat split. Qed.

(** C10 (amended): on a record whose trace pointers are all non-nil,
    [ReleaseInternal] returns with every entry of the record's traces
    nil, the number of entries and every other field of the record
    unchanged; in each trace the record pointed to, every step pointer is
    nil and nothing else has changed; no other object is touched. *)
Theorem ReleaseInternal_releases (h : Heap) (p : loc) (r : ExceptionalTx.t) :
  txs h !! p = Some r →
  Forall (live_Trace h) (ExceptionalTx.Traces r) →
  ∃ h' r',
    ExceptionalTx_ReleaseInternal (Some p) h = Some (tt, h') ∧
    txs h' !! p = Some r' ∧
    Forall (λ t, t = None) (ExceptionalTx.Traces r') ∧
    length (ExceptionalTx.Traces r') = length (ExceptionalTx.Traces r) ∧
    r' = ExceptionalTx.set_Traces r (ExceptionalTx.Traces r') ∧
    (∀ q tr, Some q ∈ ExceptionalTx.Traces r → traces h !! q = Some tr →
       ∃ tr', traces h' !! q = Some tr' ∧
         Forall (λ s, s = None) (Trace.Steps tr') ∧
         length (Trace.Steps tr') = length (Trace.Steps tr) ∧
         tr' = Trace.set_Steps tr (Trace.Steps tr')) ∧
    (∀ q, Some q ∉ ExceptionalTx.Traces r → traces h' !! q = traces h !! q) ∧
    (∀ p', p' ≠ p → txs h' !! p' = txs h !! p').
Proof.
  intros Hp Hlive. eexists _, _.
  split; [by apply ReleaseInternal_run|]. cbn [txs traces].
  split; [apply lookup_insert_eq|].
  cbn [ExceptionalTx.set_Traces ExceptionalTx.Traces].
  split; [apply Forall_replicate; done|].
  split; [apply length_replicate|].
  split; [done|].
  split; [|split].
  - intros q tr Hin Hq. exists (released tr).
    rewrite release_all_lookup, decide_True, Hq by done.
    split; [done|]. unfold released. cbn [Trace.set_Steps Trace.Steps].
    split; [apply Forall_replicate; done|].
    split; [apply length_replicate|done].
  - intros q Hq. by rewrite release_all_lookup, decide_False.
  - intros p' Hp'. by apply lookup_insert_ne.
Qed.

Lemma ReleaseInternal_releases_witness :
  let step := OneStep.mk 1 0 "PUSH1" 21000 in
  let h := mkHeap {[ 1%positive := Trace.set_Steps Trace.zero [Some step] ]}
                  {[ 1%positive := ExceptionalTx.set_Traces ExceptionalTx.zero
                                     [Some 1%positive] ]} in
  ∃ h' r' tr',
    ExceptionalTx_ReleaseInternal (Some 1%positive) h = Some (tt, h') ∧
    txs h' !! 1%positive = Some r' ∧
    ExceptionalTx.Traces r' = [None] ∧
    traces h' !! 1%positive = Some tr' ∧
    Trace.Steps tr' = [None].
Proof.
  intros step h.
  destruct (ReleaseInternal_releases h 1%positive
              (ExceptionalTx.set_Traces ExceptionalTx.zero [Some 1%positive]))
    as (h' & r' & Hrun & Hr' & Hnil & Hlen & _ & Htr & _);
    [reflexivity
    |repeat constructor; exists 1%positive; split; [reflexivity|by eexists]
    |].
  destruct (Htr 1%positive (Trace.set_Steps Trace.zero [Some step]))
    as (tr' & Htr' & Hsnil & Hslen & _);
    [apply list_elem_of_here|reflexivity|].
  exists h', r', tr'. split; [exact Hrun|]. split; [exact Hr'|].
  split; [|split; [exact Htr'|]].
  - destruct (ExceptionalTx.Traces r') as [|t [|? ?]]; try discriminate Hlen.
    by apply Forall_cons in Hnil as [-> _].
  - destruct (Trace.Steps tr') as [|s [|? ?]]; try discriminate Hslen.
    by apply Forall_cons in Hsnil as [-> _].
Defined.

(** ** Sealing *)

Lemma load_nodes_run (h : Heap) (ps : list ptr) :
  Forall (live_Trace h) ps →
  ∃ nodes, load_nodes ps h = Some (nodes, h) ∧
    Forall2 (λ p n, ∃ q, p = Some q ∧ traces h !! q = Some n) ps nodes.
Proof.
  induction ps as [|p ps IH]; intros Hlive.
  - exists []. split; [done|constructor].
  - apply Forall_cons in Hlive as [(q & -> & n & Hq) Hlive].
    destruct (IH Hlive) as (ns & Hrun & Hns).
    exists (n :: ns). split.
    + cbn [load_nodes]. unfold bind at 1. unfold load_Trace at 1.
      rewrite Hq. cbn [mbind option_bind]. unfold bind at 1.
      by rewrite Hrun.
    + constructor; [by exists q|done].
Qed.

Lemma existsb_nodes (h : Heap) (ps : list ptr) (nodes : list Trace.t) :
  Forall2 (λ p n, ∃ q, p = Some q ∧ traces h !! q = Some n) ps nodes →
  existsb node_has_exception nodes = true ↔
  ∃ q n, Some q ∈ ps ∧ traces h !! q = Some n ∧ Trace.ErrorCode n ≠ NoException.
Proof.
  induction 1 as [|p n ps nodes (q & -> & Hq) _ IH].
  - split; [discriminate|]. intros (q & n & Hin & _). by apply elem_of_nil in Hin.
  - cbn [existsb]. rewrite orb_true_iff, IH. split.
    + intros [Hn|(q' & n' & Hin & Hq' & Hn')].
      * exists q, n. split; [apply list_elem_of_here|]. split; [done|].
        unfold node_has_exception in Hn. apply negb_true_iff in Hn.
        by apply Z.eqb_neq.
      * exists q', n'. split; [by apply list_elem_of_further|done].
    + intros (q' & n' & Hin & Hq' & Hn').
      apply elem_of_cons in Hin as [Heq|Hin].
      * left. injection Heq as ->. rewrite Hq in Hq'. injection Hq' as ->.
        unfold node_has_exception. apply negb_true_iff. by apply Z.eqb_neq.
      * right. by exists q', n'.
Qed.

Lemma Seal_run (status_failed : Z → bool) (h : Heap) (p : loc)
    (r : ExceptionalTx.t) :
  txs h !! p = Some r →
  Forall (live_Trace h) (ExceptionalTx.Traces r) →
  ∃ nodes,
    Forall2 (λ t n, ∃ q, t = Some q ∧ traces h !! q = Some n)
      (ExceptionalTx.Traces r) nodes ∧
    Seal status_failed (Some p) h
    = Some (tt, mkHeap (traces h)
        (<[p := ExceptionalTx.set_summary r (total_steps nodes)
                  (status_failed (ExceptionalTx.StatusCode r)
                   || existsb node_has_exception nodes)]> (txs h))).
Proof.
  intros Hp Hlive. destruct (load_nodes_run h _ Hlive) as (nodes & Hrun & Hns).
  exists nodes. split; [done|].
  unfold Seal. unfold bind at 1. unfold load_ExceptionalTx at 1. rewrite Hp.
  cbn [mbind option_bind]. unfold bind at 1. rewrite Hrun.
  unfold store_ExceptionalTx. by rewrite Hp.
Qed.

(** C6: sealing a record whose trace pointers are live sets its
    HasException flag to true exactly when the external status code
    indicates failure or some trace of the record has a kind other than
    [NoException]; so a failed status with no traces gives true, and a
    successful status with every trace of kind [NoException] gives
    false. *)
Theorem Seal_HasException (status_failed : Z → bool) (h : Heap) (p : loc)
    (r : ExceptionalTx.t) :
  txs h !! p = Some r →
  Forall (live_Trace h) (ExceptionalTx.Traces r) →
  ∃ h' r',
    Seal status_failed (Some p) h = Some (tt, h') ∧
    txs h' !! p = Some r' ∧
    traces h' = traces h ∧
    ExceptionalTx.Traces r' = ExceptionalTx.Traces r ∧
    ExceptionalTx.StatusCode r' = ExceptionalTx.StatusCode r ∧
    (ExceptionalTx.HasException r' = true ↔
       status_failed (ExceptionalTx.StatusCode r) = true ∨
       ∃ q n, Some q ∈ ExceptionalTx.Traces r ∧ traces h !! q = Some n ∧
              Trace.ErrorCode n ≠ NoException) ∧
    (status_failed (ExceptionalTx.StatusCode r) = true →
       ExceptionalTx.Traces r = [] → ExceptionalTx.HasException r' = true) ∧
    (status_failed (ExceptionalTx.StatusCode r) = false →
       (∀ q n, Some q ∈ ExceptionalTx.Traces r → traces h !! q = Some n →
               Trace.ErrorCode n = NoException) →
       ExceptionalTx.HasException r' = false).
Proof.
  intros Hp Hlive.
  destruct (Seal_run status_failed h p r Hp Hlive) as (nodes & Hns & Hrun).
  eexists _, _. split; [exact Hrun|]. cbn [txs traces].
  split; [apply lookup_insert_eq|].
  cbn [ExceptionalTx.set_summary ExceptionalTx.Traces
         ExceptionalTx.StatusCode ExceptionalTx.HasException].
  do 3 (split; [done|]).
  assert (status_failed (ExceptionalTx.StatusCode r)
          || existsb node_has_exception nodes = true ↔
          status_failed (ExceptionalTx.StatusCode r) = true ∨
          ∃ q n, Some q ∈ ExceptionalTx.Traces r ∧ traces h !! q = Some n ∧
                 Trace.ErrorCode n ≠ NoException) as Hiff.
  { by rewrite orb_true_iff, (existsb_nodes h _ _ Hns). }
  split; [exact Hiff|]. split.
  - intros Hf _. apply Hiff. by left.
  - intros Hf Hall. apply not_true_is_false. intros Ht.
    apply Hiff in Ht as [Ht|(q & n & Hin & Hq & Hn)]; [congruence|].
    by apply Hn, (Hall q n).
Qed.

Lemma Seal_HasException_witness :
  let failed := λ code : Z, code =? 0 in
  let h := mkHeap ∅ {[ 1%positive := ExceptionalTx.zero ]} in
  ∃ h' r',
    Seal failed (Some 1%positive) h = Some (tt, h') ∧
    txs h' !! 1%positive = Some r' ∧
    ExceptionalTx.HasException r' = true.
Proof.
  intros failed h.
  destruct (Seal_HasException failed h 1%positive ExceptionalTx.zero)
    as (h' & r' & Hrun & Hr' & _ & _ & _ & _ & Hempty & _);
    [reflexivity|constructor|].
  exists h', r'. split; [exact Hrun|]. split; [exact Hr'|].
  by apply Hempty.
Defined.

(** * Further properties *)

(** ** Which messages get which kind *)

Lemma has_detail_after_iff (p s : string) :
  has_detail_after p s = true ↔
  ∃ d, s = p +:+ d ∧ d ≠ EmptyString ∧ no_newline d = true.
Proof.
  split.
  - unfold has_detail_after.
    destruct (after_prefix p s) as [d|] eqn:E; [|discriminate].
    intros Hd. exists d. split; [by apply after_prefix_Some|].
    destruct d; [discriminate|]. by split.
  - intros (d & -> & Hd & Hn). by apply has_detail_after_app.
Qed.

Lemma CheckException_kind_of (msg : string) :
  CheckException (Some msg) = Some (msg, kind_of msg).
Proof. apply CheckException_unfold. Qed.

Lemma CheckException_kind_iff (msg : string) (kind : Z) :
  CheckException (Some msg) = Some (msg, kind) ↔ kind_of msg = kind.
Proof.
  rewrite CheckException_kind_of. split; [by intros [= ->]|by intros ->].
Qed.

(** Splits the chain of tests of [kind_of msg] in hypothesis [H], closing
    the branches where the kind found is not the one [H] requires. *)
Ltac split_chain H :=
  unfold kind_of in H;
  repeat match type of H with
         | context [String.eqb ?m ?lit] =>
             destruct (String.eqb_spec m lit); [first [done | discriminate H]|]
         | context [has_detail_after ?p ?m] =>
             destruct (has_detail_after p m) eqn:?; [first [done | discriminate H]|]
         end.

Lemma kind_of_exact (msg lit : string) (kind : Z) :
  (lit, kind) ∈ exact_rules → kind_of msg = kind → msg = lit.
Proof.
  unfold exact_rules. rewrite !elem_of_cons, elem_of_nil.
  intros Hin H.
  repeat destruct Hin as [[= -> ->]|Hin]; [..|done];
    split_chain H; discriminate H.
Qed.

(** X1: a message is classified with the kind of an exact rule exactly
    when it is that rule's literal: no other message, and no pattern,
    yields one of these eleven kinds. *)
Theorem CheckException_exact_kind_iff (msg lit : string) (kind : Z) :
  (lit, kind) ∈ exact_rules →
  (CheckException (Some msg) = Some (msg, kind) ↔ msg = lit).
Proof.
  intros Hin. split.
  - intros H. apply CheckException_kind_iff in H. by eapply kind_of_exact.
  - intros ->.
    exact (proj1 (Forall_forall _ _) exact_rules_classified _ Hin).
Qed.

Lemma CheckException_exact_kind_iff_witness :
  CheckException (Some "out of gas"%string)
    = Some ("out of gas"%string, RunOutOfGas)
  ↔ "out of gas"%string = "out of gas"%string.
Proof.
  apply (CheckException_exact_kind_iff "out of gas" "out of gas" RunOutOfGas).
  do 2 apply list_elem_of_further. apply list_elem_of_here.
Defined.

Lemma kind_of_underflow (msg : string) :
  kind_of msg = DataStackUnderflow ↔ has_detail_after "stack underflow " msg = true.
Proof.
  split.
  - intros H. split_chain H. discriminate H.
  - intros H. apply has_detail_after_iff in H as (d & -> & Hd & Hn).
    unfold kind_of. by rewrite (has_detail_after_app "stack underflow " d Hd Hn).
Qed.

Lemma kind_of_overflow (msg : string) :
  kind_of msg = DataStackOverflow ↔ has_detail_after "stack limit reached " msg = true.
Proof.
  split.
  - intros H. split_chain H. discriminate H.
  - intros H. apply has_detail_after_iff in H as (d & -> & Hd & Hn).
    unfold kind_of. by rewrite (has_detail_after_app "stack limit reached " d Hd Hn).
Qed.

Lemma kind_of_invalid_jump (msg : string) :
  kind_of msg = InvalidJumpDestination ↔
  has_detail_after "invalid jump destination " msg = true.
Proof.
  split.
  - intros H. split_chain H. discriminate H.
  - intros H. apply has_detail_after_iff in H as (d & -> & Hd & Hn).
    unfold kind_of.
    by rewrite (has_detail_after_app "invalid jump destination " d Hd Hn).
Qed.

Lemma kind_of_invalid_opcode (msg : string) :
  kind_of msg = InvalidInstruction ↔ has_detail_after "invalid opcode " msg = true.
Proof.
  split.
  - intros H. split_chain H. discriminate H.
  - intros H. apply has_detail_after_iff in H as (d & -> & Hd & Hn).
    unfold kind_of. by rewrite (has_detail_after_app "invalid opcode " d Hd Hn).
Qed.

(** X2: a message is classified DataStackUnderflow (respectively
    DataStackOverflow, InvalidJumpDestination, InvalidInstruction)
    exactly when it is "stack underflow " (respectively "stack limit
    reached ", "invalid jump destination ", "invalid opcode "), with the
    space, followed by a detail that is not empty and holds no line
    feed. *)
Theorem CheckException_pattern_kind_iff (msg : string) :
  (CheckException (Some msg) = Some (msg, DataStackUnderflow) ↔
     ∃ d, msg = "stack underflow " +:+ d ∧ d ≠ EmptyString ∧ no_newline d = true) ∧
  (CheckException (Some msg) = Some (msg, DataStackOverflow) ↔
     ∃ d, msg = "stack limit reached " +:+ d ∧ d ≠ EmptyString ∧ no_newline d = true) ∧
  (CheckException (Some msg) = Some (msg, InvalidJumpDestination) ↔
     ∃ d, msg = "invalid jump destination " +:+ d ∧ d ≠ EmptyString
          ∧ no_newline d = true) ∧
  (CheckException (Some msg) = Some (msg, InvalidInstruction) ↔
     ∃ d, msg = "invalid opcode " +:+ d ∧ d ≠ EmptyString ∧ no_newline d = true).
Proof.
  rewrite !CheckException_kind_iff, <- !has_detail_after_iff.
  split; [apply kind_of_underflow|].
  split; [apply kind_of_overflow|].
  split; [apply kind_of_invalid_jump|apply kind_of_invalid_opcode].
Qed.

(** X3: a message falls to PrecompiledCallError exactly when it is none
    of the eleven literals and none of the four patterns accepts it. *)
Theorem CheckException_default_iff (msg : string) :
  CheckException (Some msg) = Some (msg, PrecompiledCallError) ↔
  (msg ∉ exact_messages) ∧
  has_detail_after "stack underflow " msg = false ∧
  has_detail_after "stack limit reached " msg = false ∧
  has_detail_after "invalid jump destination " msg = false ∧
  has_detail_after "invalid opcode " msg = false.
Proof.
  split.
  - intros H. apply CheckException_kind_iff in H. split_chain H.
    split; [|done].
    unfold exact_messages. rewrite !not_elem_of_cons.
    repeat split; first [done | apply not_elem_of_nil].
  - intros (Hn & H1 & H2 & H3 & H4). by apply CheckException_default.
Qed.

(** ** Releasing one trace *)

Lemma Trace_ReleaseInternal_not_live (h : Heap) (t : ptr) :
  ¬ live_Trace h t → Trace_ReleaseInternal t h = None.
Proof.
  intros Hn. destruct t as [q|]; [|reflexivity].
  destruct (traces h !! q) as [tr|] eqn:Hq.
  - exfalso. apply Hn. exists q. split; [done|]. by exists tr.
  - unfold Trace_ReleaseInternal. unfold bind at 1. unfold load_Trace at 1.
    by rewrite Hq.
Qed.

(** X4: on a non-nil trace pointer [Trace.ReleaseInternal] returns with
    every step pointer of that trace nil, the number of steps and every
    other field of the trace unchanged, and no other trace and no record
    touched. *)
Theorem Trace_ReleaseInternal_clears (h : Heap) (q : loc) (tr : Trace.t) :
  traces h !! q = Some tr →
  ∃ h' tr',
    Trace_ReleaseInternal (Some q) h = Some (tt, h') ∧
    traces h' !! q = Some tr' ∧
    Forall (λ s, s = None) (Trace.Steps tr') ∧
    length (Trace.Steps tr') = length (Trace.Steps tr) ∧
    tr' = Trace.set_Steps tr (Trace.Steps tr') ∧
    (∀ q', q' ≠ q → traces h' !! q' = traces h !! q') ∧
    txs h' = txs h.
Proof.
  intros Hq. exists (mkHeap (<[q := released tr]> (traces h)) (txs h)), (released tr).
  split; [by apply Trace_ReleaseInternal_run|]. cbn [traces txs].
  split; [apply lookup_insert_eq|].
  unfold released. cbn [Trace.set_Steps Trace.Steps].
  split; [by apply Forall_replicate|].
  split; [apply length_replicate|].
  split; [done|].
  split; [|done]. intros q' Hne. by apply lookup_insert_ne.
Qed.

Lemma Trace_ReleaseInternal_clears_witness :
  let step := OneStep.mk 1 0 "PUSH1" 21000 in
  let tr := Trace.set_Steps Trace.zero [Some step; Some step] in
  ∃ h' tr',
    Trace_ReleaseInternal (Some 1%positive) (mkHeap {[ 1%positive := tr ]} ∅)
      = Some (tt, h') ∧
    traces h' !! 1%positive = Some tr' ∧
    Forall (λ s, s = None) (Trace.Steps tr') ∧
    length (Trace.Steps tr') = 2%nat.
Proof.
  intros step tr.
  destruct (Trace_ReleaseInternal_clears (mkHeap {[ 1%positive := tr ]} ∅)
              1%positive tr)
    as (h' & tr' & Hrun & Hq & Hnil & Hlen & _); [reflexivity|].
  by exists h', tr'.
Defined.

(** X5: [Trace.ReleaseInternal] panics exactly when its receiver is nil
    or refers to no trace of the store; on every other pointer it
    returns. *)
Theorem Trace_ReleaseInternal_panics_iff (h : Heap) (t : ptr) :
  Trace_ReleaseInternal t h = None ↔ ¬ live_Trace h t.
Proof.
  split; [|apply Trace_ReleaseInternal_not_live].
  intros Hnone (q & -> & tr & Hq).
  by rewrite (Trace_ReleaseInternal_run h q tr Hq) in Hnone.
Qed.

(** X6: releasing a trace twice is the same as releasing it once. *)
Theorem Trace_ReleaseInternal_idempotent (h : Heap) (t : ptr) :
  (Trace_ReleaseInternal t ;; Trace_ReleaseInternal t) h
  = Trace_ReleaseInternal t h.
Proof.
  unfold bind.
  destruct t as [q|]; [|reflexivity].
  destruct (traces h !! q) as [tr|] eqn:Hq.
  - rewrite (Trace_ReleaseInternal_run h q tr Hq).
    rewrite (Trace_ReleaseInternal_run _ q (released tr)).
    + cbn [traces txs]. by rewrite insert_insert_eq, released_idemp.
    + cbn [traces]. apply lookup_insert_eq.
  - rewrite Trace_ReleaseInternal_not_live; [done|].
    intros (q' & [= <-] & tr & Hq'). congruence.
Qed.

(** ** Releasing a record that holds a nil trace pointer *)

Lemma release_traces_from_nil (p : loc) (suf pre : list ptr)
    (r : ExceptionalTx.t) (h : Heap) :
  txs h !! p = Some r →
  ExceptionalTx.Traces r = pre ++ suf →
  None ∈ suf →
  range_from (length pre) suf (λ i t,
    Trace_ReleaseInternal t ;;
    r' <- load_ExceptionalTx (Some p) ;;
    trs <- index_set (ExceptionalTx.Traces r') i None ;;
    store_ExceptionalTx (Some p) (ExceptionalTx.set_Traces r' trs)) h
  = None.
Proof.
  revert pre r h. induction suf as [|x suf IH]; intros pre r h Hp Hs Hnil.
  - by apply elem_of_nil in Hnil.
  - cbn [range_from]. unfold bind at 1. unfold bind at 1.
    destruct x as [q|]; [|reflexivity].
    apply elem_of_cons in Hnil as [?|Hnil]; [done|].
    destruct (traces h !! q) as [tr|] eqn:Hq.
    + rewrite (Trace_ReleaseInternal_run h q tr Hq).
      unfold bind at 1. unfold load_ExceptionalTx at 1. cbn [txs].
      rewrite Hp. cbn [mbind option_bind].
      unfold bind at 1. rewrite Hs, index_set_middle.
      unfold store_ExceptionalTx. cbn [txs traces]. rewrite Hp.
      cbn [mbind option_bind].
      replace (S (length pre)) with (length (pre ++ [None : ptr]))
        by (rewrite length_app; cbn; lia).
      apply (IH (pre ++ [None])
               (ExceptionalTx.set_Traces r (pre ++ None :: suf))).
      * cbn [txs]. apply lookup_insert_eq.
      * cbn [ExceptionalTx.set_Traces ExceptionalTx.Traces].
        by rewrite <- app_assoc.
      * done.
    + rewrite Trace_ReleaseInternal_not_live; [done|].
      intros (q' & [= <-] & tr & Hq'). congruence.
Qed.

Lemma ReleaseInternal_run_nil (h : Heap) (p : loc) (r : ExceptionalTx.t) :
  txs h !! p = Some r →
  None ∈ ExceptionalTx.Traces r →
  ExceptionalTx_ReleaseInternal (Some p) h = None.
Proof.
  intros Hp Hnil. unfold ExceptionalTx_ReleaseInternal, range.
  unfold bind at 1. unfold load_ExceptionalTx at 1. rewrite Hp.
  cbn [mbind option_bind].
  by apply (release_traces_from_nil p (ExceptionalTx.Traces r) [] r).
Qed.

(** X7: [ReleaseInternal] panics on every record that holds a nil trace
    pointer, wherever in the sequence it stands. *)
Theorem ReleaseInternal_nil_entry_panics (h : Heap) (p : loc)
    (r : ExceptionalTx.t) :
  txs h !! p = Some r →
  None ∈ ExceptionalTx.Traces r →
  ExceptionalTx_ReleaseInternal (Some p) h = None.
Proof. apply ReleaseInternal_run_nil. Qed.

Lemma ReleaseInternal_nil_entry_panics_witness :
  ExceptionalTx_ReleaseInternal (Some 1%positive)
    (mkHeap {[ 1%positive := Trace.zero ]}
       {[ 1%positive := ExceptionalTx.set_Traces ExceptionalTx.zero
                          [Some 1%positive; None] ]}) = None.
Proof.
  apply (ReleaseInternal_nil_entry_panics _ 1%positive
           (ExceptionalTx.set_Traces ExceptionalTx.zero [Some 1%positive; None]));
    [reflexivity|].
  apply list_elem_of_further, list_elem_of_here.
Defined.

(** X8: a second [ReleaseInternal] on a record returns only if the record
    has no traces, and then neither call changes anything; on a record
    with at least one trace the first call returns and the second
    panics. *)
Theorem ReleaseInternal_twice (h : Heap) (p : loc) (r : ExceptionalTx.t) :
  txs h !! p = Some r →
  Forall (live_Trace h) (ExceptionalTx.Traces r) →
  is_Some (ExceptionalTx_ReleaseInternal (Some p) h) ∧
  (ExceptionalTx.Traces r = [] →
     (ExceptionalTx_ReleaseInternal (Some p) ;;
      ExceptionalTx_ReleaseInternal (Some p)) h = Some (tt, h)) ∧
  (ExceptionalTx.Traces r ≠ [] →
     (ExceptionalTx_ReleaseInternal (Some p) ;;
      ExceptionalTx_ReleaseInternal (Some p)) h = None).
Proof.
  intros Hp Hlive. pose proof (ReleaseInternal_run h p r Hp Hlive) as Hrun.
  split; [by eexists|]. unfold bind. rewrite Hrun. split.
  - intros Hnil.
    assert (mkHeap (release_all (ExceptionalTx.Traces r) (traces h))
              (<[p := ExceptionalTx.set_Traces r
                        (replicate (length (ExceptionalTx.Traces r)) None)]>
                 (txs h)) = h) as Heq.
    { destruct r as [? ? ? ? ? ? ? ? ? ? ? ? ? ? trs].
      cbn [ExceptionalTx.Traces] in Hnil. subst trs. cbn.
      rewrite insert_id by exact Hp. apply Heap_eta. }
    rewrite Heq in *. exact Hrun.
  - intros Hne. eapply ReleaseInternal_run_nil.
    + cbn [txs]. apply lookup_insert_eq.
    + cbn [ExceptionalTx.set_Traces ExceptionalTx.Traces].
      destruct (ExceptionalTx.Traces r); [done|]. apply list_elem_of_here.
Qed.

Lemma ReleaseInternal_twice_witness :
  (ExceptionalTx_ReleaseInternal (Some 1%positive) ;;
   ExceptionalTx_ReleaseInternal (Some 1%positive))
    (mkHeap {[ 1%positive := Trace.zero ]}
       {[ 1%positive := ExceptionalTx.set_Traces ExceptionalTx.zero
                          [Some 1%positive] ]}) = None.
Proof.
  apply (ReleaseInternal_twice _ 1%positive
           (ExceptionalTx.set_Traces ExceptionalTx.zero [Some 1%positive]));
    [reflexivity
    |repeat constructor; exists 1%positive; split; [reflexivity|by eexists]
    |discriminate].
Defined.

(** ** Ownership of traces *)

Lemma exclusive_ownership_empty : exclusive_ownership empty_heap.
Proof.
  split.
  - intros p r Hp. cbn in Hp. by rewrite lookup_empty in Hp.
  - intros p1 p2 r1 r2 t _ Hp. cbn in Hp. by rewrite lookup_empty in Hp.
Qed.

Lemma exclusive_ownership_two (m : gmap loc Trace.t) (p1 p2 : loc)
    (r1 r2 : ExceptionalTx.t) :
  p1 ≠ p2 →
  Forall (λ t, ∃ q, t = Some q ∧ is_Some (m !! q))
    (ExceptionalTx.Traces r1 ++ ExceptionalTx.Traces r2) →
  NoDup (ExceptionalTx.Traces r1 ++ ExceptionalTx.Traces r2) →
  exclusive_ownership (mkHeap m (<[p1 := r1]> {[ p2 := r2 ]})).
Proof.
  intros Hne Hlive Hnd.
  apply Forall_app in Hlive as [Hl1 Hl2].
  apply NoDup_app in Hnd as (Hn1 & Hdisj & Hn2).
  split.
  - intros p r. cbn [txs]. intros Hp.
    apply lookup_insert_Some in Hp as [[_ <-]|[_ Hp]]; [by split|].
    apply lookup_singleton_Some in Hp as [_ <-]. by split.
  - intros q1 q2 s1 s2 t Hq. cbn [txs]. intros Hp1 Hp2 Hin.
    apply lookup_insert_Some in Hp1 as [[<- <-]|[? Hp1]].
    + apply lookup_insert_Some in Hp2 as [[? _]|[_ Hp2]]; [done|].
      apply lookup_singleton_Some in Hp2 as [_ <-]. by apply Hdisj.
    + apply lookup_singleton_Some in Hp1 as [<- <-].
      apply lookup_insert_Some in Hp2 as [[_ <-]|[_ Hp2]].
      * intros Hin'. by apply (Hdisj t).
      * by apply lookup_singleton_Some in Hp2 as [? _].
Qed.

Lemma fresh_not_live (h : Heap) (l : list ptr) :
  Forall (live_Trace h) l → Some (fresh (dom (traces h))) ∉ l.
Proof.
  intros Hlive Hin.
  apply (proj1 (Forall_forall _ _) Hlive) in Hin as (q & [= <-] & tr & Hq).
  by rewrite fresh_Trace_unused in Hq.
Qed.

(** X9: [NewTxRecord] keeps the ownership of traces: if every record's
    trace pointers are non-nil, refer to stored traces, are distinct and
    shared with no other record, then the same holds after the call. *)
Theorem NewTxRecord_keeps_ownership (h : Heap) :
  exclusive_ownership h →
  ∃ p h', NewTxRecord h = Some (Some p, h') ∧ exclusive_ownership h'.
Proof.
  intros [Hown Hdisj]. eexists _, _. split; [apply NewTxRecord_run|].
  set (p0 := fresh (dom (txs h))). split.
  - intros p r. cbn [txs].
    destruct (decide (p0 = p)) as [<-|Hne].
    + rewrite lookup_insert_eq. intros [= <-]. split; constructor.
    + rewrite lookup_insert_ne by done. intros Hp.
      destruct (Hown p r Hp) as [Hlive Hnd]. split; [|done].
      eapply Forall_impl; [exact Hlive|]. by intros t (q & -> & Hq); exists q.
  - intros p1 p2 r1 r2 t Hne. cbn [txs].
    destruct (decide (p0 = p1)) as [<-|Hne1].
    { rewrite lookup_insert_eq. intros [= <-] _ Hin. by apply elem_of_nil in Hin. }
    destruct (decide (p0 = p2)) as [<-|Hne2].
    { rewrite lookup_insert_eq. intros _ [= <-] _. apply not_elem_of_nil. }
    rewrite !lookup_insert_ne by done. by apply Hdisj.
Qed.

Lemma NewTxRecord_keeps_ownership_witness :
  let step := OneStep.mk 1 0 "PUSH1" 21000 in
  let h := mkHeap
             (<[ 1%positive := Trace.set_Steps Trace.zero [Some step] ]>
                {[ 2%positive := Trace.zero ]})
             (<[ 1%positive := ExceptionalTx.set_Traces ExceptionalTx.zero
                                 [Some 1%positive] ]>
                {[ 2%positive := ExceptionalTx.set_Traces ExceptionalTx.zero
                                   [Some 2%positive] ]}) in
  ∃ p h', NewTxRecord h = Some (Some p, h') ∧ exclusive_ownership h'.
Proof.
  intros step h. apply (NewTxRecord_keeps_ownership h).
  apply exclusive_ownership_two; [done| |].
  - repeat constructor; eexists; (split; [reflexivity|by eexists]).
  - cbn. apply NoDup_cons. split; [|apply NoDup_singleton].
    intros Hin. apply list_elem_of_singleton in Hin. discriminate Hin.
Defined.

(** X10: [NewTrace] keeps the ownership of traces: the pointer it appends
    is non-nil, refers to a stored trace, and occurs in no record, the
    receiver included, before the call. *)
Theorem NewTrace_keeps_ownership (h : Heap) (p : loc) (r : ExceptionalTx.t) :
  exclusive_ownership h →
  txs h !! p = Some r →
  ∃ q h',
    ExceptionalTx_NewTrace (Some p) h = Some (Some q, h') ∧
    (∀ p' r', txs h !! p' = Some r' → Some q ∉ ExceptionalTx.Traces r') ∧
    exclusive_ownership h'.
Proof.
  intros [Hown Hdisj] Hp. eexists _, _. split; [by apply NewTrace_run|].
  set (q0 := fresh (dom (traces h))).
  assert (∀ p' r', txs h !! p' = Some r' → Some q0 ∉ ExceptionalTx.Traces r')
    as Hfresh.
  { intros p' r' Hp'. apply fresh_not_live. by apply (Hown p' r'). }
  split; [exact Hfresh|].
  assert (∀ l, Forall (live_Trace h) l →
            Forall (live_Trace
              (mkHeap (<[q0 := Trace.zero]> (traces h))
                 (<[p := ExceptionalTx.set_Traces r
                           (ExceptionalTx.Traces r ++ [Some q0])]> (txs h)))) l)
    as Hkeep.
  { intros l Hl. eapply Forall_impl; [exact Hl|]. intros t Ht.
    by apply live_Trace_insert. }
  split.
  - intros p' r'. cbn [txs].
    destruct (decide (p = p')) as [<-|Hne].
    + rewrite lookup_insert_eq. intros [= <-].
      cbn [ExceptionalTx.set_Traces ExceptionalTx.Traces].
      destruct (Hown p r Hp) as [Hlive Hnd]. split.
      * apply Forall_app. split; [by apply Hkeep|].
        constructor; [|constructor]. exists q0. split; [done|].
        cbn [traces]. rewrite lookup_insert_eq. by eexists.
      * apply NoDup_app. split; [done|]. split; [|apply NoDup_singleton].
        intros t Hin Hin'. apply list_elem_of_singleton in Hin' as ->.
        by apply (Hfresh p r Hp).
    + rewrite lookup_insert_ne by done. intros Hp'.
      destruct (Hown p' r' Hp') as [Hlive Hnd]. split; [by apply Hkeep|done].
  - intros p1 p2 r1 r2 t Hne. cbn [txs].
    destruct (decide (p = p1)) as [<-|Hne1].
    + rewrite lookup_insert_eq, lookup_insert_ne by done.
      intros [= <-] Hp2. cbn [ExceptionalTx.set_Traces ExceptionalTx.Traces].
      rewrite elem_of_app, list_elem_of_singleton.
      intros [Hin| ->]; [by apply (Hdisj p p2 r r2)|by apply (Hfresh p2)].
    + rewrite (lookup_insert_ne _ p p1) by done. intros Hp1.
      destruct (decide (p = p2)) as [<-|Hne2].
      * rewrite lookup_insert_eq. intros [= <-] Hin.
        cbn [ExceptionalTx.set_Traces ExceptionalTx.Traces].
        rewrite elem_of_app, list_elem_of_singleton.
        intros [Hin'| ->]; [by apply (Hdisj p1 p r1 r t Hne Hp1 Hp Hin)|].
        by apply (Hfresh p1 r1 Hp1).
      * rewrite lookup_insert_ne by done. intros Hp2 Hin.
        by apply (Hdisj p1 p2 r1 r2 t).
Qed.

Lemma NewTrace_keeps_ownership_witness :
  ∃ q h',
    ExceptionalTx_NewTrace (Some 1%positive)
      (mkHeap ∅ {[ 1%positive := ExceptionalTx.zero ]}) = Some (Some q, h') ∧
    exclusive_ownership h'.
Proof.
  destruct (NewTrace_keeps_ownership
              (mkHeap ∅ {[ 1%positive := ExceptionalTx.zero ]})
              1%positive ExceptionalTx.zero)
    as (q & h' & Hrun & _ & Hown).
  - split.
    + intros p r. cbn [txs]. intros Hp.
      apply lookup_singleton_Some in Hp as [_ <-]. split; constructor.
    + intros p1 p2 r1 r2 t _. cbn [txs]. intros Hp _ Hin.
      apply lookup_singleton_Some in Hp as [_ <-]. by apply elem_of_nil in Hin.
  - reflexivity.
  - by exists q, h'.
Defined.

(** X11: when traces are exclusively owned, releasing one record leaves
    every other record as it was, with each of its traces untouched and
    its trace pointers still referring to stored traces, so that the
    other records can be released in turn. *)
Theorem ReleaseInternal_spares_other_records (h : Heap) (p : loc)
    (r : ExceptionalTx.t) :
  exclusive_ownership h →
  txs h !! p = Some r →
  ∃ h',
    ExceptionalTx_ReleaseInternal (Some p) h = Some (tt, h') ∧
    ∀ p' r', p' ≠ p → txs h !! p' = Some r' →
      txs h' !! p' = Some r' ∧
      (∀ q, Some q ∈ ExceptionalTx.Traces r' → traces h' !! q = traces h !! q) ∧
      is_Some (ExceptionalTx_ReleaseInternal (Some p') h').
Proof.
  intros [Hown Hdisj] Hp. destruct (Hown p r Hp) as [Hlive _].
  eexists. split; [by apply ReleaseInternal_run|].
  intros p' r' Hne Hp'. cbn [txs traces].
  assert (∀ q, Some q ∈ ExceptionalTx.Traces r' →
               release_all (ExceptionalTx.Traces r) (traces h) !! q
               = traces h !! q) as Hsame.
  { intros q Hin. rewrite release_all_lookup, decide_False; [done|].
    intros Hin'. by apply (Hdisj p p' r r' (Some q)). }
  assert (<[p := ExceptionalTx.set_Traces r
                   (replicate (length (ExceptionalTx.Traces r)) None)]>
            (txs h) !! p' = Some r') as Hp''.
  { by rewrite lookup_insert_ne. }
  split; [exact Hp''|]. split; [exact Hsame|].
  eexists. apply ReleaseInternal_run; [exact Hp''|].
  destruct (Hown p' r' Hp') as [Hlive' _].
  rewrite Forall_forall in Hlive'. apply Forall_forall. intros t Hin.
  destruct (Hlive' t Hin) as (q & -> & Hq). exists q. split; [done|].
  cbn [traces]. by rewrite Hsame.
Qed.

Lemma ReleaseInternal_spares_other_records_witness :
  let step := OneStep.mk 1 0 "PUSH1" 21000 in
  let tr := Trace.set_Steps Trace.zero [Some step] in
  let r2 := ExceptionalTx.set_Traces ExceptionalTx.zero [Some 2%positive] in
  let h := mkHeap (<[ 1%positive := tr ]> {[ 2%positive := tr ]})
             (<[ 1%positive := ExceptionalTx.set_Traces ExceptionalTx.zero
                                 [Some 1%positive] ]>
                {[ 2%positive := r2 ]}) in
  ∃ h',
    ExceptionalTx_ReleaseInternal (Some 1%positive) h = Some (tt, h') ∧
    traces h' !! 1%positive = Some (released tr) ∧
    txs h' !! 2%positive = Some r2 ∧
    traces h' !! 2%positive = Some tr ∧
    is_Some (ExceptionalTx_ReleaseInternal (Some 2%positive) h').
Proof.
  intros step tr r2 h.
  destruct (ReleaseInternal_spares_other_records h 1%positive
              (ExceptionalTx.set_Traces ExceptionalTx.zero [Some 1%positive]))
    as (h' & Hrun & Hother).
  - apply exclusive_ownership_two; [done| |].
    + repeat constructor; eexists; (split; [reflexivity|by eexists]).
    + cbn. apply NoDup_cons. split; [|apply NoDup_singleton].
      intros Hin. apply list_elem_of_singleton in Hin. discriminate Hin.
  - reflexivity.
  - destruct (Hother 2%positive r2) as (Hr2 & Hsame & Hrel);
      [done|reflexivity|].
    exists h'. split; [exact Hrun|].
    split; [by injection Hrun as <-|].
    split; [exact Hr2|]. split; [|exact Hrel].
    rewrite Hsame; [reflexivity|apply list_elem_of_here].
Defined.

(** ** Release in the reduced-size schema *)

Lemma Reduced_Heap_eta (h : Reduced.Heap) :
  Reduced.mkHeap (Reduced.traces h) (Reduced.txs h) = h.
Proof. by destruct h. Qed.

Lemma Reduced_set_Traces_id (r : Reduced.Transaction.t) :
  Reduced.Transaction.set_Traces r (Reduced.Transaction.Traces r) = r.
Proof. by destruct r. Qed.

Lemma Reduced_index_set_middle {A : Type} (pre suf : list A) (x v : A)
    (h : Reduced.Heap) :
  Reduced.index_set (pre ++ x :: suf) (length pre) v h
  = Some (pre ++ v :: suf, h).
Proof.
  unfold Reduced.index_set. rewrite decide_True.
  - unfold Reduced.ret. rewrite insert_app_r_alt by lia.
    by rewrite Nat.sub_diag.
  - rewrite length_app. cbn. lia.
Qed.

Lemma Reduced_clear_from (p : loc) (suf pre : list ptr)
    (r : Reduced.Transaction.t) (h : Reduced.Heap) :
  Reduced.txs h !! p = Some r →
  Reduced.Transaction.Traces r = pre ++ suf →
  Reduced.range_from (length pre) suf (λ i,
    Reduced.bind (Reduced.load_Transaction (Some p)) (λ r',
    Reduced.bind (Reduced.index_set (Reduced.Transaction.Traces r') i None) (λ trs,
    Reduced.store_Transaction (Some p)
      (Reduced.Transaction.set_Traces r' trs)))) h
  = Some (tt, Reduced.mkHeap (Reduced.traces h)
      (<[p := Reduced.Transaction.set_Traces r
                (pre ++ replicate (length suf) None)]> (Reduced.txs h))).
Proof.
  revert pre r h. induction suf as [|x suf IH]; intros pre r h Hp Hs.
  - cbn [Reduced.range_from length replicate]. unfold Reduced.ret.
    rewrite app_nil_r in *. rewrite <- Hs, Reduced_set_Traces_id.
    by rewrite insert_id, Reduced_Heap_eta.
  - cbn [Reduced.range_from]. unfold Reduced.bind at 1.
    unfold Reduced.bind at 1. unfold Reduced.load_Transaction at 1.
    rewrite Hp. cbn [mbind option_bind].
    unfold Reduced.bind at 1. rewrite Hs, Reduced_index_set_middle.
    unfold Reduced.store_Transaction. rewrite Hp. cbn [mbind option_bind].
    replace (S (length pre)) with (length (pre ++ [None : ptr]))
      by (rewrite length_app; cbn; lia).
    rewrite (IH (pre ++ [None])
               (Reduced.Transaction.set_Traces r (pre ++ None :: suf))).
    + cbn [Reduced.traces Reduced.txs Reduced.Transaction.set_Traces].
      rewrite insert_insert_eq. by rewrite <- app_assoc.
    + cbn [Reduced.txs]. apply lookup_insert_eq.
    + cbn [Reduced.Transaction.set_Traces Reduced.Transaction.Traces].
      by rewrite <- app_assoc.
Qed.

Lemma Reduced_ReleaseInternal_run (h : Reduced.Heap) (p : loc)
    (r : Reduced.Transaction.t) :
  Reduced.txs h !! p = Some r →
  Reduced.Transaction_ReleaseInternal (Some p) h
  = Some (tt, Reduced.mkHeap (Reduced.traces h)
      (<[p := Reduced.Transaction.set_Traces r
                (replicate (length (Reduced.Transaction.Traces r)) None)]>
         (Reduced.txs h))).
Proof.
  intros Hp. unfold Reduced.Transaction_ReleaseInternal.
  unfold Reduced.bind at 1. unfold Reduced.load_Transaction at 1. rewrite Hp.
  cbn [mbind option_bind].
  by apply (Reduced_clear_from p (Reduced.Transaction.Traces r) []).
Qed.

(** X12: in the reduced-size schema [ReleaseInternal] returns on every
    record, whatever its trace pointers are (nil ones included): every
    entry becomes nil, the number of entries and every other field are
    unchanged, and no trace and no other record is touched. *)
Theorem Reduced_ReleaseInternal_clears (h : Reduced.Heap) (p : loc)
    (r : Reduced.Transaction.t) :
  Reduced.txs h !! p = Some r →
  ∃ h' r',
    Reduced.Transaction_ReleaseInternal (Some p) h = Some (tt, h') ∧
    Reduced.txs h' !! p = Some r' ∧
    Forall (λ t, t = None) (Reduced.Transaction.Traces r') ∧
    length (Reduced.Transaction.Traces r')
      = length (Reduced.Transaction.Traces r) ∧
    r' = Reduced.Transaction.set_Traces r (Reduced.Transaction.Traces r') ∧
    Reduced.traces h' = Reduced.traces h ∧
    (∀ p', p' ≠ p → Reduced.txs h' !! p' = Reduced.txs h !! p').
Proof.
  intros Hp. eexists _, _.
  split; [by apply Reduced_ReleaseInternal_run|].
  cbn [Reduced.txs Reduced.traces].
  split; [apply lookup_insert_eq|].
  cbn [Reduced.Transaction.set_Traces Reduced.Transaction.Traces].
  split; [by apply Forall_replicate|].
  split; [apply length_replicate|].
  split; [done|]. split; [done|].
  intros p' Hne. by apply lookup_insert_ne.
Qed.

Lemma Reduced_ReleaseInternal_clears_witness :
  let h := Reduced.mkHeap ∅
             {[ 1%positive := Reduced.Transaction.set_Traces
                                Reduced.Transaction.zero [None; Some 7%positive] ]} in
  ∃ h' r',
    Reduced.Transaction_ReleaseInternal (Some 1%positive) h = Some (tt, h') ∧
    Reduced.txs h' !! 1%positive = Some r' ∧
    Forall (λ t, t = None) (Reduced.Transaction.Traces r') ∧
    length (Reduced.Transaction.Traces r') = 2%nat.
Proof.
  intros h.
  destruct (Reduced_ReleaseInternal_clears h 1%positive
              (Reduced.Transaction.set_Traces Reduced.Transaction.zero
                 [None; Some 7%positive]))
    as (h' & r' & Hrun & Hp & Hnil & Hlen & _); [reflexivity|].
  by exists h', r'.
Defined.

(** X13: in the reduced-size schema releasing a record twice is the same
    as releasing it once; the second call never panics after the
    first. *)
Theorem Reduced_ReleaseInternal_idempotent (h : Reduced.Heap) (tx : ptr) :
  Reduced.bind (Reduced.Transaction_ReleaseInternal tx)
    (λ _, Reduced.Transaction_ReleaseInternal tx) h
  = Reduced.Transaction_ReleaseInternal tx h.
Proof.
  unfold Reduced.bind at 1.
  destruct tx as [p|]; [|reflexivity].
  destruct (Reduced.txs h !! p) as [r|] eqn:Hp.
  - rewrite (Reduced_ReleaseInternal_run h p r Hp).
    rewrite (Reduced_ReleaseInternal_run _ p
               (Reduced.Transaction.set_Traces r
                  (replicate (length (Reduced.Transaction.Traces r)) None))).
    + cbn [Reduced.traces Reduced.txs Reduced.Transaction.set_Traces
             Reduced.Transaction.Traces].
      by rewrite insert_insert_eq, length_replicate.
    + cbn [Reduced.txs]. apply lookup_insert_eq.
  - assert (Reduced.Transaction_ReleaseInternal (Some p) h = None) as ->; [|done].
    unfold Reduced.Transaction_ReleaseInternal. unfold Reduced.bind at 1.
    unfold Reduced.load_Transaction at 1. by rewrite Hp.
Qed.

(** ** The classifier of the specification against the code *)













